(** * Mensagens.tsx: placeholder extraction, binding and message generation

    A shallow embedding of the logic of [src/pages/Mensagens.tsx]: the
    placeholder scan ([variables]), the textual substitution
    ([generatedMessage]), the event handlers ([handleSelectCliente],
    [handleSelectTemplate], [handleVariableChange], [handleSendWhatsapp]) and
    the asynchronous fetch of a client's case records
    ([fetchProcessosByCliente]).

    JavaScript strings are sequences of UTF-16 code units: they are modelled
    as [list N].  The object [variableValues] is used as a dictionary from
    placeholder names to strings: it is modelled as a [gmap] (own properties
    only). *)

From Stdlib Require Import NArith String Ascii.
From stdpp Require Import base option list gmap.
From Equations Require Import Equations.

Local Open Scope N_scope.

(** ** Strings *)

(** Code units of an ASCII literal. *)
Definition lit (s : string) : list N :=
  map N_of_ascii (list_ascii_of_string s).

Definition LBRACKET : N := 91.
Definition RBRACKET : N := 93.
Definition DOLLAR : N := 36.

(** The marker [[key]] built by the template literal [`[${key}]`]. *)
Definition marker (key : list N) : list N := LBRACKET :: key ++ [RBRACKET].

(** [String.prototype.includes]: [needle] occurs in [hay]. *)
Fixpoint isPrefixOf (p s : list N) : bool :=
  match p, s with
  | [], _ => true
  | _ :: _, [] => false
  | a :: p', b :: s' => (a =? b) && isPrefixOf p' s'
  end.

Fixpoint includes (hay needle : list N) : bool :=
  isPrefixOf needle hay ||
  match hay with
  | [] => false
  | _ :: hay' => includes hay' needle
  end.

(** [v.slice(1, -1)] *)
Definition slice_1_m1 (v : list N) : list N :=
  take (length v - 2)%nat (drop 1 v).

(** ** The placeholder scan: [content.match(/\[(.*?)\]/g)] *)

(** Line terminators, which [.] does not match (no [s] flag): LF, CR,
    U+2028, U+2029. *)
Definition isLineTerminator (c : N) : bool :=
  (c =? 10) || (c =? 13) || (c =? 8232) || (c =? 8233).

(** The lazy [(.*?)\]] part, run on the text that follows an opening
    bracket: the captured text up to the first closing bracket, if no line
    terminator or end of input comes first. *)
Fixpoint lazyBody (s : list N) : option (list N) :=
  match s with
  | [] => None
  | c :: s' =>
      if c =? RBRACKET then Some []
      else if isLineTerminator c then None
      else (c ::.) <$> lazyBody s'
  end.

(** One attempt of [/\[(.*?)\]/] at the start of [s]: the capture. *)
Definition matchAt (s : list N) : option (list N) :=
  match s with
  | [] => None
  | c :: s' => if c =? LBRACKET then lazyBody s' else None
  end.

(** All matches, left to right, each search resuming where the last match
    ended ([lastIndex]); a failed attempt moves on by one code unit. *)
Equations? matchAll (s : list N) : list (list N) by wf (length s) lt :=
  matchAll [] := [];
  matchAll (c :: s') with matchAt (c :: s') => {
    | Some n := marker n :: matchAll (drop (S (length n)) s');
    | None := matchAll s' }.
Proof. all: simpl; rewrite ?length_drop; lia. Qed.

(** [[...new Set(matches)]]: insertion order, later duplicates dropped. *)
Definition setAdd (seen : list (list N)) (x : list N) : list (list N) :=
  if decide (x ∈ seen) then seen else seen ++ [x].

Definition newSet (l : list (list N)) : list (list N) := foldl setAdd [] l.

Record Template := {
  t_id : list N;
  t_title : list N;
  t_content : list N
}.

Definition variables (selectedTemplate : option Template) : list (list N) :=
  match selectedTemplate with
  | None => []
  | Some t => slice_1_m1 <$> newSet (matchAll (t_content t))
  end.

(** ** Substitution: [message.replace(new RegExp(`\\[${key}\\]`, "g"), value || `[${key}]`)] *)

(** The key is spliced into the pattern source unescaped.  The model covers
    the keys for which the pattern [\[key\]] is a literal: those without a
    regular-expression syntax character. *)
Definition isSyntaxCharacter (c : N) : bool :=
  bool_decide (c ∈ lit "^$\.*+?()[]{}|").

(** [variableValues[key]] also reaches the properties every object inherits
    from [Object.prototype]; a key with one of these names is outside the
    model of [variableValues] as a dictionary. *)
Definition inheritedProperties : list (list N) :=
  lit <$> [ "constructor"; "__proto__"; "hasOwnProperty"; "isPrototypeOf";
            "propertyIsEnumerable"; "toLocaleString"; "toString"; "valueOf";
            "__defineGetter__"; "__defineSetter__"; "__lookupGetter__";
            "__lookupSetter__" ]%string.

Definition literalKey (key : list N) : bool :=
  forallb (λ c, negb (isSyntaxCharacter c)) key
  && bool_decide (key ∉ inheritedProperties).

(** [GetSubstitution] for a pattern without capture groups: in the
    replacement text [$$] is a dollar sign, [$&] the matched text, [$`] the
    input before the match, [$'] the input after it; any other dollar sign
    stands for itself. *)
Fixpoint getSubstitution (matched before after templ : list N) : list N :=
  match templ with
  | [] => []
  | c :: t =>
      if c =? DOLLAR then
        match t with
        | d :: t' =>
            if d =? DOLLAR then DOLLAR :: getSubstitution matched before after t'
            else if d =? 38 then matched ++ getSubstitution matched before after t'
            else if d =? 96 then before ++ getSubstitution matched before after t'
            else if d =? 39 then after ++ getSubstitution matched before after t'
            else DOLLAR :: getSubstitution matched before after t
        | [] => [DOLLAR]
        end
      else c :: getSubstitution matched before after t
  end.

(** Global replacement of the literal marker of [key] in [s]; [before] is the
    part of the input already scanned.  Matches are found left to right and
    do not overlap; the replacement text is expanded against the input of
    this call. *)
Equations? replaceFrom (key templ before s : list N) : list N by wf (length s) lt :=
  replaceFrom key templ before [] := [];
  replaceFrom key templ before (c :: s') with isPrefixOf (marker key) (c :: s') => {
    | true :=
        getSubstitution (marker key) before (drop (S (length key)) s') templ
          ++ replaceFrom key templ (before ++ marker key) (drop (S (length key)) s');
    | false := c :: replaceFrom key templ (before ++ [c]) s' }.
Proof. all: simpl; rewrite ?length_drop; lia. Qed.

Definition replaceMarker (key templ message : list N) : list N :=
  replaceFrom key templ [] message.

(** [value || `[${key}]`] *)
Definition valueOrMarker (variableValues : gmap (list N) (list N)) (key : list N) : list N :=
  match variableValues !! key with
  | Some (c :: v) => c :: v
  | _ => marker key
  end.

(** One round of the [forEach]; [None] when the key is outside the model. *)
Definition substituteKey (variableValues : gmap (list N) (list N))
    (message : option (list N)) (key : list N) : option (list N) :=
  m ← message;
  if literalKey key then Some (replaceMarker key (valueOrMarker variableValues key) m)
  else None.

Definition generatedMessage (selectedTemplate : option Template)
    (variableValues : gmap (list N) (list N)) : option (list N) :=
  match selectedTemplate with
  | None => Some []
  | Some t =>
      foldl (substituteKey variableValues) (Some (t_content t))
            (variables selectedTemplate)
  end.

(** ** Substitution for keys with a dot *)

(** A dot in the key is, in the pattern [\[key\]], the wildcard: it matches
    one code unit that is not a line terminator (the pattern has the flag
    [g] alone).  For a key made of dots and of code units that stand for
    themselves the pattern has a fixed length, and whether it matches at a
    position is decided one code unit after the other. *)
Definition DOT : N := 46.

Definition dottedKey (key : list N) : bool :=
  forallb (λ c, (c =? DOT) || negb (isSyntaxCharacter c)) key
  && bool_decide (key ∉ inheritedProperties).

(** The key and the closing bracket match at the start of [s]. *)
Fixpoint matchesKey (key s : list N) : bool :=
  match key, s with
  | [], c :: _ => RBRACKET =? c
  | k :: key', c :: s' =>
      (if k =? DOT then negb (isLineTerminator c) else k =? c) && matchesKey key' s'
  | _, [] => false
  end.

Definition matchesPattern (key s : list N) : bool :=
  match s with
  | c :: s' => (LBRACKET =? c) && matchesKey key s'
  | [] => false
  end.

(** Global replacement of the matches of the pattern of [key] in [s]; the
    matched text is what stands in the input, not the marker of the key. *)
Equations? replaceDotted (key templ before s : list N) : list N by wf (length s) lt :=
  replaceDotted key templ before [] := [];
  replaceDotted key templ before (c :: s') with matchesPattern key (c :: s') => {
    | true :=
        getSubstitution (c :: take (S (length key)) s') before
                        (drop (S (length key)) s') templ
          ++ replaceDotted key templ (before ++ c :: take (S (length key)) s')
               (drop (S (length key)) s');
    | false := c :: replaceDotted key templ (before ++ [c]) s' }.
Proof. all: simpl; rewrite ?length_drop; lia. Qed.

(** One round of the [forEach] for such a key. *)
Definition substituteDottedKey (variableValues : gmap (list N) (list N))
    (message : option (list N)) (key : list N) : option (list N) :=
  m ← message;
  if dottedKey key
  then Some (replaceDotted key (valueOrMarker variableValues key) [] m)
  else None.

Definition generatedMessageDotted (selectedTemplate : option Template)
    (variableValues : gmap (list N) (list N)) : option (list N) :=
  match selectedTemplate with
  | None => Some []
  | Some t =>
      foldl (substituteDottedKey variableValues) (Some (t_content t))
            (variables selectedTemplate)
  end.

(** ** Component state *)

Record SupaCliente := {
  c_id : list N;
  c_nome : list N;
  c_telefone : option (list N)
}.

Record SupaProcesso := {
  p_id : list N;
  p_numero : list N;
  p_assunto : list N;
  p_status : list N;
  p_cliente_id : list N
}.

#[global] Instance Template_eq_dec : EqDecision Template.
Proof. solve_decision. Defined.
#[global] Instance SupaCliente_eq_dec : EqDecision SupaCliente.
Proof. solve_decision. Defined.
#[global] Instance SupaProcesso_eq_dec : EqDecision SupaProcesso.
Proof. solve_decision. Defined.

(** The [useState] cells of the component. *)
Record State := {
  clientes : list SupaCliente;
  templates : list Template;
  processos : list SupaProcesso;
  selectedCliente : option SupaCliente;
  selectedTemplate : option Template;
  variableValues : gmap (list N) (list N)
}.

(** What a handler does besides updating the state. *)
Inductive Effect :=
| Toast (title description : list N)
| ConsoleError (message : list N)
| WindowOpen (url target : list N)
| SelectProcessos (clienteId : list N)
| Uncaught (error : list N).

#[global] Instance Effect_eq_dec : EqDecision Effect.
Proof. solve_decision. Defined.

Definition numero_processo : list N := lit "numero_processo".
Definition status_processo : list N := lit "status_processo".
Definition nome_cliente : list N := lit "nome_cliente".
Definition data_audiencia : list N := lit "data_audiencia".
Definition data_vencimento : list N := lit "data_vencimento".

(** The form control rendered for a variable (the chain of [if (varName ===
    ...)] in the JSX): a select over the client's [processos], a select
    over three fixed status labels, a date picker, a text input. *)
Inductive SlotKind := RelationalSelect | EnumeratedSelect | DateSlot | FreeText.

Definition classify (varName : list N) : SlotKind :=
  if decide (varName = numero_processo) then RelationalSelect
  else if decide (varName = status_processo) then EnumeratedSelect
  else if decide (varName = data_audiencia ∨ varName = data_vencimento) then DateSlot
  else FreeText.

(** ** Handlers *)

Definition handleSelectCliente (clienteId : list N) (st : State) : State * list Effect :=
  let cliente := find (λ c, bool_decide (c_id c = clienteId)) (clientes st) in
  ({| clientes := clientes st;
      templates := templates st;
      processos := [];
      selectedCliente := cliente;
      selectedTemplate := selectedTemplate st;
      variableValues := delete status_processo (delete numero_processo (variableValues st)) |},
   match cliente with
   | Some c => [SelectProcessos (c_id c)]
   | None => []
   end).

Definition handleSelectTemplate (templateId : list N) (st : State) : State :=
  {| clientes := clientes st;
     templates := templates st;
     processos := processos st;
     selectedCliente := selectedCliente st;
     selectedTemplate := find (λ t, bool_decide (t_id t = templateId)) (templates st);
     variableValues := ∅ |}.

Definition handleVariableChange (varName value : list N) (st : State) : State * list Effect :=
  ({| clientes := clientes st;
      templates := templates st;
      processos := processos st;
      selectedCliente := selectedCliente st;
      selectedTemplate := selectedTemplate st;
      variableValues := <[varName := value]> (variableValues st) |},
   []).

(** The effect with dependencies [[selectedCliente, variables]]. *)
Definition nomeClienteEffect (st : State) : State :=
  match selectedCliente st with
  | Some c =>
      if bool_decide (nome_cliente ∈ variables (selectedTemplate st)) then
        {| clientes := clientes st;
           templates := templates st;
           processos := processos st;
           selectedCliente := selectedCliente st;
           selectedTemplate := selectedTemplate st;
           variableValues := <[nome_cliente := c_nome c]> (variableValues st) |}
      else st
  | None => st
  end.

(** The render that follows a handler: the effect runs when one of its
    dependencies changed ([variables] is recomputed exactly when
    [selectedTemplate] changes).  Dependencies are compared by identity; the
    objects held in the state come from the loaded lists and are told apart
    here by their fields. *)
Definition commit (before after : State) : State :=
  if bool_decide (selectedCliente before = selectedCliente after
                  ∧ selectedTemplate before = selectedTemplate after)
  then after else nomeClienteEffect after.

(** The answer of the [processos] query. *)
Inductive QueryResult :=
| QueryError
| QueryData (data : option (list SupaProcesso)).

(** [fetchProcessosByCliente] after its [await]. *)
Definition fetchProcessosByCliente_resolved (r : QueryResult) (st : State)
  : State * list Effect :=
  match r with
  | QueryError =>
      (st, [ConsoleError (lit "Erro ao carregar processos:");
            Toast (lit "Erro")
              (lit "N" ++ [227] ++ lit "o foi poss" ++ [237]
                 ++ lit "vel carregar os processos do cliente.")])
  | QueryData data =>
      ({| clientes := clientes st;
          templates := templates st;
          processos := default [] data;
          selectedCliente := selectedCliente st;
          selectedTemplate := selectedTemplate st;
          variableValues := variableValues st |}, [])
  end.

(** The answer of the [clientes] query and of the [message_templates]
    query, sent once when the component mounts. *)
Inductive ClientesResult :=
| ClientesError
| ClientesData (data : option (list SupaCliente)).

Inductive TemplatesResult :=
| TemplatesError
| TemplatesData (data : option (list Template)).

Definition naoFoiPossivel : list N :=
  lit "N" ++ [227] ++ lit "o foi poss" ++ [237] ++ lit "vel carregar ".

(** [fetchClientes] after its [await]. *)
Definition fetchClientes_resolved (r : ClientesResult) (st : State)
  : State * list Effect :=
  match r with
  | ClientesError =>
      (st, [ConsoleError (lit "Erro ao carregar clientes:");
            Toast (lit "Erro") (naoFoiPossivel ++ lit "a lista de clientes.")])
  | ClientesData data =>
      ({| clientes := default [] data;
          templates := templates st;
          processos := processos st;
          selectedCliente := selectedCliente st;
          selectedTemplate := selectedTemplate st;
          variableValues := variableValues st |}, [])
  end.

(** [fetchTemplates] after its [await]. *)
Definition fetchTemplates_resolved (r : TemplatesResult) (st : State)
  : State * list Effect :=
  match r with
  | TemplatesError =>
      (st, [ConsoleError (lit "Erro ao carregar modelos:");
            Toast (lit "Erro") (naoFoiPossivel ++ lit "os modelos.")])
  | TemplatesData data =>
      ({| clientes := clientes st;
          templates := default [] data;
          processos := processos st;
          selectedCliente := selectedCliente st;
          selectedTemplate := selectedTemplate st;
          variableValues := variableValues st |}, [])
  end.

(** ** Dispatch *)

(** [encodeURIComponent]: unreserved code units are kept, the others are
    written as the percent-encoded UTF-8 bytes of their code point; a lone
    surrogate raises [URIError] ([None]). *)
Definition isUnreserved (c : N) : bool :=
  (65 <=? c) && (c <=? 90) || (97 <=? c) && (c <=? 122)
  || (48 <=? c) && (c <=? 57) || bool_decide (c ∈ lit "-_.!~*'()").

Definition hexDigit (n : N) : N := if n <? 10 then 48 + n else 55 + n.

Definition percent (b : N) : list N := [37; hexDigit (b / 16); hexDigit (b mod 16)].

Definition utf8 (cp : N) : list N :=
  if cp <? 128 then [cp]
  else if cp <? 2048 then [192 + cp / 64; 128 + cp mod 64]
  else if cp <? 65536 then
    [224 + cp / 4096; 128 + (cp / 64) mod 64; 128 + cp mod 64]
  else
    [240 + cp / 262144; 128 + (cp / 4096) mod 64; 128 + (cp / 64) mod 64;
     128 + cp mod 64].

Definition isHighSurrogate (c : N) : bool := (55296 <=? c) && (c <=? 56319).
Definition isLowSurrogate (c : N) : bool := (56320 <=? c) && (c <=? 57343).

Fixpoint encodeURIComponent (s : list N) : option (list N) :=
  match s with
  | [] => Some []
  | c :: s' =>
      if isUnreserved c then (c ::.) <$> encodeURIComponent s'
      else if isLowSurrogate c then None
      else if isHighSurrogate c then
        match s' with
        | d :: s'' =>
            if isLowSurrogate d then
              ((utf8 (65536 + (c - 55296) * 1024 + (d - 56320)) ≫= percent) ++.)
                <$> encodeURIComponent s''
            else None
        | [] => None
        end
      else ((utf8 c ≫= percent) ++.) <$> encodeURIComponent s'
  end.

(** [telefone.replace(/\D/g, "")] *)
Definition isDigit (c : N) : bool := (48 <=? c) && (c <=? 57).

Definition digitsOnly (telefone : list N) : list N := List.filter isDigit telefone.

(** The second guard of [handleSendWhatsapp]:
    [!generatedMessage || variables.some((v) => generatedMessage.includes(`[${v}]`))] *)
Definition incomplete (variables : list (list N)) (generatedMessage : list N) : bool :=
  bool_decide (generatedMessage = [])
  || existsb (λ v, includes generatedMessage (marker v)) variables.

Definition msgSelecione : list N := lit "Selecione um cliente.".
Definition msgPreencha : list N :=
  lit "Preencha todas as vari" ++ [225] ++ lit "veis da mensagem.".
Definition msgSemTelefone : list N :=
  lit "Cliente sem telefone v" ++ [225] ++ lit "lido.".

Definition handleSendWhatsapp (selectedCliente : option SupaCliente)
    (variables : list (list N)) (generatedMessage : list N) : list Effect :=
  match selectedCliente with
  | None => [Toast (lit "Erro") msgSelecione]
  | Some c =>
      if incomplete variables generatedMessage then [Toast (lit "Erro") msgPreencha]
      else
        let phone := digitsOnly (default [] (c_telefone c)) in
        if bool_decide (phone = []) then [Toast (lit "Erro") msgSemTelefone]
        else
          match encodeURIComponent generatedMessage with
          | Some text =>
              [WindowOpen (lit "https://wa.me/55" ++ phone ++ lit "?text=" ++ text)
                          (lit "_blank")]
          | None => [Uncaught (lit "URIError")]
          end
  end.

(** A click on the send button in state [st]; [None] when the preview is
    outside the model. *)
Definition sendWhatsapp (st : State) : option (list Effect) :=
  handleSendWhatsapp (selectedCliente st) (variables (selectedTemplate st))
    <$> generatedMessage (selectedTemplate st) (variableValues st).

(** The same click when the names of the template may have dots. *)
Definition sendWhatsappDotted (st : State) : option (list Effect) :=
  handleSendWhatsapp (selectedCliente st) (variables (selectedTemplate st))
    <$> generatedMessageDotted (selectedTemplate st) (variableValues st).

(** [isComplete(template, bindings)]: the completeness guard applied to the
    preview of the template. *)
Definition isComplete (t : Template) (bindings : gmap (list N) (list N)) : option bool :=
  (λ m, negb (incomplete (variables (Some t)) m)) <$> generatedMessage (Some t) bindings.

(** ** The form *)

(** [disabled={!selectedCliente}] of the select of templates. *)
Definition templateSelectDisabled (st : State) : bool :=
  bool_decide (selectedCliente st = None).

(** [disabled={!selectedCliente || processos.length === 0}] of the select
    for [numero_processo]. *)
Definition processoSelectDisabled (st : State) : bool :=
  bool_decide (selectedCliente st = None) || bool_decide (processos st = []).

(** The values on offer in that select: [value={processo.numero}]. *)
Definition processoOptions (st : State) : list (list N) :=
  p_numero <$> processos st.

(** ** The event loop *)

(** The component together with the queries that have been sent and not yet
    answered (the client id each one asked for). *)
Record World := {
  ui : State;
  inflight : list (list N)
}.

Inductive Event :=
| SelectCliente (clienteId : list N)
| SelectTemplate (templateId : list N)
| VariableChange (varName value : list N)
| ProcessosResolved (k : nat) (r : QueryResult).

Definition queriesOf (effs : list Effect) : list (list N) :=
  omap (λ e, match e with SelectProcessos cid => Some cid | _ => None end) effs.

Definition step (w : World) (e : Event) : World * list Effect :=
  match e with
  | SelectCliente clienteId =>
      let '(st, effs) := handleSelectCliente clienteId (ui w) in
      ({| ui := commit (ui w) st; inflight := inflight w ++ queriesOf effs |}, effs)
  | SelectTemplate templateId =>
      let st := handleSelectTemplate templateId (ui w) in
      ({| ui := commit (ui w) st; inflight := inflight w |}, [])
  | VariableChange varName value =>
      let '(st, effs) := handleVariableChange varName value (ui w) in
      ({| ui := commit (ui w) st; inflight := inflight w |}, effs)
  | ProcessosResolved k r =>
      match inflight w !! k with
      | Some _ =>
          let '(st, effs) := fetchProcessosByCliente_resolved r (ui w) in
          ({| ui := st; inflight := delete k (inflight w) |}, effs)
      | None => (w, [])
      end
  end.

Definition run (w : World) (evs : list Event) : World :=
  foldl (λ w e, fst (step w e)) w evs.

(** * Vocabulary of the statements *)

(** Names without brackets and dollar signs; every key of the model is one. *)
Definition plainName (k : list N) : Prop :=
  (LBRACKET ∉ k) ∧ (RBRACKET ∉ k) ∧ (DOLLAR ∉ k).

Definition noLineTerminator (n : list N) : Prop :=
  Forall (λ c, isLineTerminator c = false) n.

(** The captured text of each match, in the order of the matches. *)
Definition capturedNames (body : list N) : list (list N) :=
  slice_1_m1 <$> matchAll body.

(** The query filters on [cliente_id]: the rows it answers with belong to
    the client it asked for. *)
Definition answersOwnQuery (w : World) (e : Event) : bool :=
  match e with
  | ProcessosResolved k (QueryData (Some data)) =>
      match inflight w !! k with
      | Some cid => forallb (λ p, bool_decide (p_cliente_id p = cid)) data
      | None => true
      end
  | _ => true
  end.

(** A client is picked only when no query is waiting for its answer. *)
Definition picksWhenSettled (w : World) (e : Event) : bool :=
  match e with
  | SelectCliente _ => bool_decide (inflight w = [])
  | _ => true
  end.

Fixpoint allAlong (ok : World → Event → bool) (w : World) (evs : list Event) : bool :=
  match evs with
  | [] => true
  | e :: evs' => ok w e && allAlong ok (step w e).1 evs'
  end.

(** The rows on offer belong to the selected client. *)
Definition processosOfSelected (st : State) : Prop :=
  ∀ p, p ∈ processos st →
       ∃ c, selectedCliente st = Some c ∧ p_cliente_id p = c_id c.

Definition initialWorld (cs : list SupaCliente) (ts : list Template) : World :=
  {| ui := {| clientes := cs; templates := ts; processos := [];
              selectedCliente := None; selectedTemplate := None;
              variableValues := ∅ |};
     inflight := [] |}.

(** Every query in flight asks for the selected client. *)
Definition inflightOfSelected (w : World) : Prop :=
  ∀ cid, cid ∈ inflight w →
         ∃ c, selectedCliente (ui w) = Some c ∧ cid = c_id c.

Definition unbound (vv : gmap (list N) (list N)) (n : list N) : Prop :=
  vv !! n = None ∨ vv !! n = Some [].

(** The body of a template the way the scan reads it: the markers it
    matches and the code units between them; [Val] is a value put in the
    place of a marker. *)
Inductive Token :=
| Ch (c : N)
| Mark (n : list N)
| Val (v : list N).

#[global] Instance Token_eq_dec : EqDecision Token.
Proof. solve_decision. Defined.

Definition tokenText (tok : Token) : list N :=
  match tok with
  | Ch c => [c]
  | Mark n => marker n
  | Val v => v
  end.

Definition flatten (toks : list Token) : list N := toks ≫= tokenText.

Equations? tokenize (s : list N) : list Token by wf (length s) lt :=
  tokenize [] := [];
  tokenize (c :: s') with matchAt (c :: s') => {
    | Some n := Mark n :: tokenize (drop (S (length n)) s');
    | None := Ch c :: tokenize s' }.
Proof. all: simpl; rewrite ?length_drop; lia. Qed.

(** Each marker gives way to its value when it has one that is not empty,
    and stays as it is otherwise; the text between markers is kept. *)
Definition bindToken (vv : gmap (list N) (list N)) (tok : Token) : Token :=
  match tok with
  | Mark n =>
      match vv !! n with
      | Some (c :: v) => Val (c :: v)
      | _ => Mark n
      end
  | _ => tok
  end.

Definition renderSpec (body : list N) (vv : gmap (list N) (list N)) : list N :=
  flatten (bindToken vv <$> tokenize body).

Definition marks (toks : list Token) : list (list N) :=
  omap (λ tok, match tok with Mark n => Some (marker n) | _ => None end) toks.

(** The names of the markers of a sequence, in the order they stand in. *)
Definition markNames (toks : list Token) : list (list N) :=
  omap (λ tok, match tok with Mark n => Some n | _ => None end) toks.

(** What follows an opening bracket that starts no match: code units of
    the text, none of them a closing bracket, up to a line terminator or
    to the end. *)
Fixpoint openRun (toks : list Token) : Prop :=
  match toks with
  | [] => True
  | Ch c :: rest => c ≠ RBRACKET ∧ (isLineTerminator c = true ∨ openRun rest)
  | _ => False
  end.

Definition tokenOk (tok : Token) (rest : list Token) : Prop :=
  match tok with
  | Ch c => c = LBRACKET → openRun rest
  | Mark n => (LBRACKET ∉ n) ∧ (RBRACKET ∉ n) ∧ noLineTerminator n
  | Val v => LBRACKET ∉ v
  end.

Fixpoint wellFormed (toks : list Token) : Prop :=
  match toks with
  | [] => True
  | tok :: rest => tokenOk tok rest ∧ wellFormed rest
  end.

(** A body read as markers and text: the name of a marker has no closing
    bracket and no line terminator, an opening bracket of the text starts
    no match, and a stretch of text has no opening bracket. *)
Definition tokenRead (tok : Token) (rest : list Token) : Prop :=
  match tok with
  | Ch c => c = LBRACKET → openRun rest
  | Mark n => (RBRACKET ∉ n) ∧ noLineTerminator n
  | Val v => LBRACKET ∉ v
  end.

Fixpoint reading (toks : list Token) : Prop :=
  match toks with
  | [] => True
  | tok :: rest => tokenRead tok rest ∧ reading rest
  end.

(** Replacing the marker of one key, read on the tokens. *)
Definition substToken (k v : list N) (tok : Token) : Token :=
  match tok with
  | Mark n => if decide (n = k) then Val v else tok
  | _ => tok
  end.

(** A value free of the characters that the replacement and the later
    rounds would read: opening brackets and dollar signs. *)
Definition cleanValue (v : list N) : Prop := (LBRACKET ∉ v) ∧ (DOLLAR ∉ v).

Definition cleanValues (t : Template) (vv : gmap (list N) (list N)) : Prop :=
  ∀ n v, n ∈ variables (Some t) → vv !! n = Some v → cleanValue v.

Definition allBound (t : Template) (vv : gmap (list N) (list N)) : Prop :=
  ∀ n, n ∈ variables (Some t) → ∃ v, vv !! n = Some v ∧ v ≠ [].

(** One round of the [forEach], read on the tokens. *)
Definition bindKey (vv : gmap (list N) (list N)) (k : list N) (tok : Token) : Token :=
  match tok with
  | Mark n => if decide (n = k) then bindToken vv tok else tok
  | _ => tok
  end.

Definition bindKeys (vv : gmap (list N) (list N)) (keys : list (list N))
    (tok : Token) : Token :=
  foldl (λ tok k, bindKey vv k tok) tok keys.

(** Strings of 16-bit code units, as JavaScript strings are. *)
Definition codeUnits (s : list N) : Prop := Forall (λ c, c < 65536) s.

(** What [encodeURIComponent] lets through or writes: unreserved code units
    (the hexadecimal digits are among them) and the percent sign. *)
Definition urlSafe (c : N) : Prop := isUnreserved c = true ∨ c = 37.

Definition noSurrogate (s : list N) : Prop :=
  Forall (λ c, isHighSurrogate c = false ∧ isLowSurrogate c = false) s.

(** The selection and the queries in flight refer to what was loaded. *)
Definition refersToLoaded (cs : list SupaCliente) (ts : list Template) (w : World) : Prop :=
  clientes (ui w) = cs
  ∧ templates (ui w) = ts
  ∧ (∀ c, selectedCliente (ui w) = Some c → c ∈ cs)
  ∧ (∀ t, selectedTemplate (ui w) = Some t → t ∈ ts)
  ∧ (∀ cid, cid ∈ inflight w → ∃ c, c ∈ cs ∧ c_id c = cid).

(** * Sample data *)

Definition tpl (body : list N) : Template :=
  {| t_id := []; t_title := []; t_content := body |}.

Definition ana : SupaCliente :=
  {| c_id := lit "A"; c_nome := lit "Ana"; c_telefone := Some (lit "(11) 91234-5678") |}.

Definition bia : SupaCliente :=
  {| c_id := lit "B"; c_nome := lit "Bia"; c_telefone := None |}.

Definition processoDeAna : SupaProcesso :=
  {| p_id := lit "p1"; p_numero := lit "123/2024"; p_assunto := lit "Cobranca";
     p_status := lit "Em Andamento"; p_cliente_id := lit "A" |}.

Definition processoDeBia : SupaProcesso :=
  {| p_id := lit "p2"; p_numero := lit "77/2023"; p_assunto := lit "Divorcio";
     p_status := lit "Aguardando"; p_cliente_id := lit "B" |}.

(** Ana is selected; a status and a hearing date have been filled in. *)
Definition c1_state : State :=
  {| clientes := [ana; bia];
     templates := [];
     processos := [processoDeAna];
     selectedCliente := Some ana;
     selectedTemplate :=
       Some (tpl (lit "[numero_processo]: [status_processo], [data_audiencia]"));
     variableValues :=
       <[data_audiencia := lit "05/03/2025"]>
         (<[status_processo := lit "Em Andamento"]> ∅) |}.

Definition c1_world : World := {| ui := c1_state; inflight := [] |}.

Definition c7_state : State :=
  {| clientes := []; templates := []; processos := [];
     selectedCliente := None;
     selectedTemplate := Some (tpl (lit "Bom dia, [nome_cliente]."));
     variableValues := ∅ |}.

Definition c7_world : World := {| ui := c7_state; inflight := [] |}.

Definition c10_state : State :=
  {| clientes := [ana]; templates := []; processos := [];
     selectedCliente := Some ana;
     selectedTemplate := Some (tpl []);
     variableValues := ∅ |}.

(** Ana is picked, then Bia, and only then does the answer for Ana arrive. *)
Definition staleTrace : list Event :=
  [ SelectCliente (lit "A"); SelectCliente (lit "B");
    ProcessosResolved 0 (QueryData (Some [processoDeAna])) ].

(** Each answer arrives before the next client is picked. *)
Definition settledTrace : list Event :=
  [ SelectCliente (lit "A");
    ProcessosResolved 0 (QueryData (Some [processoDeAna]));
    SelectCliente (lit "B");
    ProcessosResolved 0 (QueryData (Some [processoDeBia])) ].

Definition c6_state : State :=
  {| clientes := [ana]; templates := []; processos := [];
     selectedCliente := Some ana;
     selectedTemplate := Some (tpl (lit "Processo [numero_processo]: [status_processo]."));
     variableValues := <[numero_processo := lit "123/2024"]> ∅ |}.

Definition modelo : Template :=
  tpl (lit "Ol" ++ [225] ++ lit " [nome_cliente], seu processo [numero_processo] est"
         ++ [225] ++ lit " [status_processo].").

Definition valoresMaria : gmap (list N) (list N) :=
  <[status_processo := lit "Em Andamento"]>
    (<[numero_processo := lit "123/2024"]> (<[nome_cliente := lit "Maria"]> ∅)).

Definition modeloValor : Template := tpl (lit "Total devido: [valor].").

Definition valoresDolar : gmap (list N) (list N) := <[lit "valor" := lit "US$$ 100"]> ∅.

Definition modeloPar : Template := tpl (lit "[a]-[b]").

Definition valoresPar (a : list N) : gmap (list N) (list N) :=
  <[lit "a" := a]> (<[lit "b" := lit "$`"]> ∅).

(** Ana is selected and the three variables of the template have a value. *)
Definition x11_state : State :=
  {| clientes := [ana; bia]; templates := [modelo]; processos := [processoDeAna];
     selectedCliente := Some ana;
     selectedTemplate := Some modelo;
     variableValues := valoresMaria |}.

Definition modeloT1 : Template :=
  {| t_id := lit "t1"; t_title := lit "Bom dia";
     t_content := lit "Bom dia, [nome_cliente]." |}.


(** Two names that differ in one code unit, a dot in the first; only the
    first has a value. *)
Definition modeloPrazo : Template :=
  tpl (lit "Prazo [data.fim], audiencia [data_fim].").

Definition c6_dotted_state : State :=
  {| clientes := [ana]; templates := []; processos := [];
     selectedCliente := Some ana;
     selectedTemplate := Some modeloPrazo;
     variableValues := <[lit "data.fim" := lit "10/05"]> ∅ |}.

(** Ana is selected, the template greets the client by name, and the name
    and a hearing date have been filled in. *)
Definition c1_seed_world : World :=
  {| ui := {| clientes := [ana; bia]; templates := []; processos := [processoDeAna];
              selectedCliente := Some ana;
              selectedTemplate :=
                Some (tpl (lit "Bom dia, [nome_cliente]: [numero_processo] em [data_audiencia]"));
              variableValues :=
                <[data_audiencia := lit "05/03/2025"]>
                  (<[numero_processo := lit "123/2024"]>
                     (<[nome_cliente := lit "Ana"]> ∅)) |};
     inflight := [] |}.

(** * Lemmas *)

(** ** Bindings kept and dropped by the handlers *)

Lemma valueOrMarker_ext (vv vv' : gmap (list N) (list N)) (key : list N) :
  vv !! key = vv' !! key → valueOrMarker vv key = valueOrMarker vv' key.
Proof. unfold valueOrMarker. by intros ->. Qed.

Lemma foldl_substituteKey_ext (vv vv' : gmap (list N) (list N))
    (keys : list (list N)) (acc : option (list N)) :
  (∀ k, k ∈ keys → vv !! k = vv' !! k) →
  foldl (substituteKey vv) acc keys = foldl (substituteKey vv') acc keys.
Proof.
  revert acc. induction keys as [|k keys IH]; intros acc Hagree; [done|].
  cbn [foldl]. rewrite IH by (intros; apply Hagree; by right).
  f_equal. unfold substituteKey.
  by rewrite (valueOrMarker_ext vv vv' k) by (apply Hagree; by left).
Qed.

(** The preview reads the bindings of the template's variables only. *)
Lemma generatedMessage_ext (t : option Template) (vv vv' : gmap (list N) (list N)) :
  (∀ k, k ∈ variables t → vv !! k = vv' !! k) →
  generatedMessage t vv = generatedMessage t vv'.
Proof.
  intros Hagree. destruct t as [t|]; [|done].
  unfold generatedMessage. by apply foldl_substituteKey_ext.
Qed.

Lemma commit_variableValues (before after : State) (k : list N) :
  k ≠ nome_cliente →
  variableValues (commit before after) !! k = variableValues after !! k.
Proof.
  intros Hk. unfold commit, nomeClienteEffect.
  repeat (case_bool_decide || case_match); simpl; try done.
  by rewrite lookup_insert_ne.
Qed.

(** ** Dispatch *)

Lemma empty_body_preview (t : Template) (vv : gmap (list N) (list N)) :
  t_content t = [] →
  variables (Some t) = [] ∧ generatedMessage (Some t) vv = Some [].
Proof.
  intros Hbody. unfold generatedMessage, variables. rewrite Hbody.
  by simp matchAll.
Qed.

(** ** Strings: prefixes, occurrences, the scan *)

Lemma isPrefixOf_spec (p s : list N) :
  isPrefixOf p s = true ↔ ∃ r, s = p ++ r.
Proof.
  revert s. induction p as [|a p IH]; intros s; cbn.
  - split; [eauto|done].
  - destruct s as [|b s].
    + split; [done|]. by intros [r [=]].
    + rewrite andb_true_iff, N.eqb_eq, IH. split.
      * intros [-> [r ->]]. eauto.
      * intros [r [= -> ->]]. eauto.
Qed.

Lemma includes_spec (hay needle : list N) :
  includes hay needle = true ↔ ∃ a b, hay = a ++ needle ++ b.
Proof.
  induction hay as [|c hay IH]; cbn; rewrite orb_true_iff, isPrefixOf_spec.
  - split.
    + intros [[r ->]|]; [|done]. by exists [], r.
    + intros (a & b & H). left. exists b.
      destruct a; [done|discriminate H].
  - rewrite IH. split.
    + intros [[r ->]|(a & b & ->)]; [by exists [], r|by exists (c :: a), b].
    + intros (a & b & H). destruct a as [|c' a].
      * left. by exists b.
      * right. injection H as -> ->. eauto.
Qed.

Lemma length_ind {A} (P : list A → Prop) :
  (∀ l, (∀ l', (length l' < length l)%nat → P l') → P l) → ∀ l, P l.
Proof.
  intros H l. remember (length l) as n eqn:Hn. revert l Hn.
  induction n as [n IH] using lt_wf_ind. intros l ->.
  apply H. intros l' Hl'. by apply (IH (length l')).
Qed.

Lemma matchAll_cons (c : N) (s : list N) :
  matchAll (c :: s) =
  match matchAt (c :: s) with
  | Some n => marker n :: matchAll (drop (S (length n)) s)
  | None => matchAll s
  end.
Proof. simp matchAll. by destruct (matchAt (c :: s)). Qed.

Lemma replaceFrom_cons (key templ before : list N) (c : N) (s : list N) :
  replaceFrom key templ before (c :: s) =
  if isPrefixOf (marker key) (c :: s) then
    getSubstitution (marker key) before (drop (S (length key)) s) templ
      ++ replaceFrom key templ (before ++ marker key) (drop (S (length key)) s)
  else c :: replaceFrom key templ (before ++ [c]) s.
Proof. simp replaceFrom. by destruct (isPrefixOf (marker key) (c :: s)). Qed.

Lemma marker_app (key r : list N) :
  marker key ++ r = LBRACKET :: key ++ RBRACKET :: r.
Proof. unfold marker. cbn. by rewrite <- (assoc_L (++)). Qed.

Lemma drop_key_bracket (key r : list N) :
  drop (S (length key)) (key ++ RBRACKET :: r) = r.
Proof.
  induction key as [|c key IH]; [done|]. cbn [app length]. by rewrite skipn_cons.
Qed.

Lemma length_marker (key : list N) : length (marker key) = S (S (length key)).
Proof. unfold marker. cbn. rewrite length_app. cbn. lia. Qed.

Lemma replaceFrom_match (key templ before r : list N) :
  replaceFrom key templ before (marker key ++ r) =
  getSubstitution (marker key) before r templ
    ++ replaceFrom key templ (before ++ marker key) r.
Proof.
  assert (Hp : isPrefixOf (marker key) (marker key ++ r) = true)
    by (apply isPrefixOf_spec; by exists r).
  rewrite marker_app in *. rewrite replaceFrom_cons, Hp.
  by rewrite drop_key_bracket.
Qed.

Lemma isPrefixOf_marker_cons (key : list N) (c : N) (s : list N) :
  isPrefixOf (marker key) (c :: s)
  = (LBRACKET =? c) && isPrefixOf (key ++ [RBRACKET]) s.
Proof. reflexivity. Qed.

Lemma isPrefixOf_marker_other (key : list N) (c : N) (s : list N) :
  c ≠ LBRACKET → isPrefixOf (marker key) (c :: s) = false.
Proof.
  intros Hc. rewrite isPrefixOf_marker_cons.
  apply andb_false_iff. left. apply N.eqb_neq. congruence.
Qed.

(** A stretch without an opening bracket holds the start of no match. *)
Lemma replaceFrom_skip (key templ v before s : list N) :
  LBRACKET ∉ v →
  replaceFrom key templ before (v ++ s) = v ++ replaceFrom key templ (before ++ v) s.
Proof.
  revert before. induction v as [|c v IH]; intros before Hv.
  - by rewrite (right_id_L [] (++)).
  - cbn [app]. rewrite replaceFrom_cons.
    rewrite isPrefixOf_marker_other by (intros ->; apply Hv; by left).
    rewrite IH by (intros ?; apply Hv; by right).
    by rewrite <- (assoc_L (++)).
Qed.

Lemma getSubstitution_plain (matched before after templ : list N) :
  DOLLAR ∉ templ → getSubstitution matched before after templ = templ.
Proof.
  induction templ as [|c t IH]; intros Hd; [done|].
  cbn [getSubstitution].
  assert (Hc : (c =? DOLLAR) = false)
    by (apply N.eqb_neq; intros ->; apply Hd; by left).
  rewrite Hc, IH; [done|]. intros ?; apply Hd; by right.
Qed.

(** Replacing a marker by itself changes nothing. *)
Lemma replaceFrom_id (key before s : list N) :
  DOLLAR ∉ key → replaceFrom key (marker key) before s = s.
Proof.
  intros Hd. assert (Hm : DOLLAR ∉ marker key).
  { unfold marker. rewrite elem_of_cons, elem_of_app, list_elem_of_singleton.
    intros [|[|]]; done. }
  revert before. induction s as [s IH] using length_ind. intros before.
  destruct s as [|c s]; [by simp replaceFrom|].
  rewrite replaceFrom_cons.
  destruct (isPrefixOf (marker key) (c :: s)) eqn:Hp.
  - apply isPrefixOf_spec in Hp as [r Hr].
    rewrite getSubstitution_plain by done.
    assert (Hdrop : drop (S (length key)) s = r).
    { rewrite marker_app in Hr. injection Hr as -> ->. apply drop_key_bracket. }
    rewrite Hdrop, IH; [done|].
    rewrite Hr, length_app, length_marker. lia.
  - rewrite IH; [done|]. cbn. lia.
Qed.

Lemma literalKey_plain (k : list N) : literalKey k = true → plainName k.
Proof.
  unfold literalKey. intros [Hall _]%andb_true_iff.
  rewrite forallb_forall in Hall.
  assert (Hsyn : ∀ c, c ∈ lit "^$\.*+?()[]{}|" → c ∉ k).
  { intros c Hc Hin. apply list_elem_of_In, Hall in Hin.
    unfold isSyntaxCharacter in Hin.
    by rewrite bool_decide_eq_true_2 in Hin. }
  repeat split; apply Hsyn; vm_compute; set_solver.
Qed.

Lemma key_bracket_inj (k n r r' : list N) :
  RBRACKET ∉ k → RBRACKET ∉ n →
  k ++ RBRACKET :: r = n ++ RBRACKET :: r' → k = n ∧ r = r'.
Proof.
  revert n. induction k as [|a k IH]; intros [|b n] Hk Hn Heq; cbn in Heq.
  - by injection Heq as ->.
  - injection Heq as <- _. exfalso. apply Hn. by left.
  - injection Heq as -> _. exfalso. apply Hk. by left.
  - injection Heq as -> Heq. apply IH in Heq as [-> ->]; [done| |].
    + intros ?. apply Hk. by right.
    + intros ?. apply Hn. by right.
Qed.

Lemma key_bracket_split (k pre x r : list N) :
  LBRACKET ∉ k →
  pre ++ LBRACKET :: x = k ++ RBRACKET :: r →
  ∃ pre', pre = k ++ RBRACKET :: pre'.
Proof.
  revert pre. induction k as [|a k IH]; intros pre Hk Heq; cbn in Heq.
  - destruct pre as [|c pre]; [discriminate Heq|].
    injection Heq as -> _. by exists pre.
  - destruct pre as [|c pre]; cbn in Heq.
    + injection Heq as <- _. exfalso. apply Hk. by left.
    + injection Heq as -> Heq. apply IH in Heq as [pre' ->].
      * by exists pre'.
      * intros ?. apply Hk. by right.
Qed.

(** A match of [[k]] met while an occurrence of [[n]] lies ahead either is
    that occurrence or ends before it. *)
Lemma marker_prefix_inv (k n pre post : list N) :
  plainName k → plainName n →
  isPrefixOf (marker k) (pre ++ marker n ++ post) = true →
  (pre = [] ∧ k = n) ∨ ∃ pre', pre = marker k ++ pre'.
Proof.
  intros (Hk1 & Hk2 & _) (Hn1 & Hn2 & _) [r Hr]%isPrefixOf_spec.
  rewrite !marker_app in Hr. destruct pre as [|c pre]; cbn in Hr.
  - left. injection Hr as Hr. by apply key_bracket_inj in Hr as [-> _].
  - right. injection Hr as -> Hr.
    apply key_bracket_split in Hr as [pre' ->]; [|done].
    exists pre'. by rewrite marker_app.
Qed.

(** Replacing the marker of another key leaves an occurrence of [[n]]. *)
Lemma replaceFrom_keeps_marker (k n templ : list N) :
  plainName k → plainName n → k ≠ n →
  ∀ pre before post,
    ∃ a b, replaceFrom k templ before (pre ++ marker n ++ post) = a ++ marker n ++ b.
Proof.
  intros Hk Hn Hne pre. induction pre as [pre IH] using length_ind.
  intros before post. destruct pre as [|c pre].
  - cbn [app]. rewrite marker_app, replaceFrom_cons.
    destruct (isPrefixOf _ _) eqn:Hp.
    { rewrite <- marker_app in Hp.
      by destruct (marker_prefix_inv k n [] post Hk Hn Hp) as [[_ ?]|[pre' Hpre]]. }
    replace (n ++ RBRACKET :: post) with ((n ++ [RBRACKET]) ++ post)
      by (by rewrite <- (assoc_L (++))).
    rewrite replaceFrom_skip.
    + eexists [], _. rewrite marker_app. cbn. by rewrite <- (assoc_L (++)).
    + destruct Hn as (Hn1 & _ & _). rewrite elem_of_app, list_elem_of_singleton.
      intros [|]; done.
  - cbn [app]. rewrite replaceFrom_cons.
    destruct (isPrefixOf _ _) eqn:Hp.
    + destruct (marker_prefix_inv k n (c :: pre) post Hk Hn Hp)
        as [[? _]|[pre' Hpre]]; [done|].
      rewrite marker_app in Hpre. injection Hpre as -> ->.
      rewrite <- (assoc_L (++)). cbn [app]. rewrite drop_key_bracket.
      destruct (IH pre') with (before := before ++ marker k) (post := post)
        as (a & b & ->).
      { cbn. rewrite length_app. cbn. lia. }
      eexists (_ ++ a), b. by rewrite <- (assoc_L (++)).
    + destruct (IH pre) with (before := before ++ [c]) (post := post)
        as (a & b & ->); [cbn; lia|].
      by exists (c :: a), b.
Qed.

(** ** The scan finds markers *)

Lemma lazyBody_Some (s n : list N) :
  lazyBody s = Some n →
  ∃ r, s = n ++ RBRACKET :: r ∧ (RBRACKET ∉ n) ∧ noLineTerminator n.
Proof.
  revert n. induction s as [|c s IH]; intros n; cbn; [done|].
  destruct (c =? RBRACKET) eqn:Hc.
  { intros [= <-]. apply N.eqb_eq in Hc as ->. exists s.
    repeat split; [apply not_elem_of_nil|constructor]. }
  destruct (isLineTerminator c) eqn:Hlt; [done|].
  destruct (lazyBody s) as [n'|]; [|done]. intros [= <-].
  destruct (IH n' eq_refl) as (r & -> & Hn & Hnl). exists r.
  repeat split; [|by constructor].
  apply not_elem_of_cons. split; [|done]. apply N.eqb_neq in Hc. congruence.
Qed.

Lemma lazyBody_marker (n r : list N) :
  RBRACKET ∉ n → noLineTerminator n → lazyBody (n ++ RBRACKET :: r) = Some n.
Proof.
  induction n as [|c n IH]; intros Hn Hnl; cbn; [done|].
  apply not_elem_of_cons in Hn as [Hc Hn]. apply Forall_cons in Hnl as [Hlt Hnl].
  assert (Hc' : (c =? RBRACKET) = false) by (apply N.eqb_neq; congruence).
  by rewrite Hc', Hlt, IH.
Qed.

Lemma matchAt_Some (s n : list N) :
  matchAt s = Some n →
  ∃ r, s = marker n ++ r ∧ (RBRACKET ∉ n) ∧ noLineTerminator n.
Proof.
  destruct s as [|c s]; cbn [matchAt]; [done|].
  destruct (c =? LBRACKET) eqn:Hc; [|done]. apply N.eqb_eq in Hc as ->.
  intros (r & -> & ? & ?)%lazyBody_Some. exists r. by rewrite marker_app.
Qed.

Lemma matchAt_marker (n r : list N) :
  RBRACKET ∉ n → noLineTerminator n → matchAt (marker n ++ r) = Some n.
Proof. intros. rewrite marker_app. cbn. by apply lazyBody_marker. Qed.

Lemma matchAt_drop (c : N) (s n : list N) :
  matchAt (c :: s) = Some n →
  c :: s = marker n ++ drop (S (length n)) s
  ∧ (length (drop (S (length n)) s) < length (c :: s))%nat
  ∧ (RBRACKET ∉ n) ∧ noLineTerminator n.
Proof.
  intros (r & Hs & Hn & Hnl)%matchAt_Some.
  assert (Hdrop : drop (S (length n)) s = r).
  { rewrite marker_app in Hs. injection Hs as _ ->. apply drop_key_bracket. }
  rewrite Hdrop. repeat split; try done.
  rewrite Hs, length_app, length_marker. lia.
Qed.

(** Induction along the scan: a match is consumed whole, a code unit that
    starts no match is passed over. *)
Lemma scan_ind (P : list N → Prop) :
  P [] →
  (∀ c s n,
     matchAt (c :: s) = Some n →
     c :: s = marker n ++ drop (S (length n)) s →
     RBRACKET ∉ n → noLineTerminator n →
     P (drop (S (length n)) s) → P (c :: s)) →
  (∀ c s, matchAt (c :: s) = None → P s → P (c :: s)) →
  ∀ s, P s.
Proof.
  intros Hnil Hmatch Hpass s. induction s as [s IH] using length_ind.
  destruct s as [|c s]; [done|].
  destruct (matchAt (c :: s)) as [n|] eqn:Hm.
  - destruct (matchAt_drop c s n Hm) as (Heq & Hlen & Hn & Hnl).
    apply (Hmatch c s n); auto.
  - apply Hpass; [done|]. apply IH. cbn. lia.
Qed.

(** Every match is a marker that occurs in the text. *)
Lemma matchAll_elem (s x : list N) :
  x ∈ matchAll s →
  ∃ n a b, x = marker n ∧ s = a ++ marker n ++ b ∧ (RBRACKET ∉ n) ∧ noLineTerminator n.
Proof.
  induction s as [|c s n Hm Hs Hn Hnl IH|c s Hm IH] using scan_ind.
  - simp matchAll. by intros ?%elem_of_nil.
  - rewrite matchAll_cons, Hm. intros [->|Hx]%elem_of_cons.
    + by exists n, [], (drop (S (length n)) s).
    + apply IH in Hx as (n' & a & b & -> & Hb & ? & ?).
      exists n', (marker n ++ a), b. by rewrite Hs, Hb, <- (assoc_L (++)).
  - rewrite matchAll_cons, Hm. intros Hx.
    apply IH in Hx as (n' & a & b & -> & -> & ? & ?).
    by exists n', (c :: a), b.
Qed.

(** ** Insertion order of the set of matches *)

Lemma newSet_snoc (l : list (list N)) (x : list N) :
  newSet (l ++ [x]) = setAdd (newSet l) x.
Proof. unfold newSet. by rewrite foldl_app. Qed.

Lemma elem_of_newSet (l : list (list N)) (x : list N) : x ∈ newSet l ↔ x ∈ l.
Proof.
  induction l as [|y l IH] using rev_ind; [done|].
  rewrite newSet_snoc, elem_of_app, list_elem_of_singleton. unfold setAdd.
  case_decide as Hy.
  - rewrite IH. split; [by left|]. intros [?| ->]; [done|]. by apply IH.
  - by rewrite elem_of_app, list_elem_of_singleton, IH.
Qed.

Lemma newSet_subset (l : list (list N)) (x : list N) : x ∈ newSet l → x ∈ l.
Proof. apply elem_of_newSet. Qed.

Lemma NoDup_newSet (l : list (list N)) : NoDup (newSet l).
Proof.
  induction l as [|y l IH] using rev_ind; [constructor|].
  rewrite newSet_snoc. unfold setAdd. case_decide as Hy; [done|].
  apply NoDup_app. repeat split; [done| |apply NoDup_singleton].
  intros x Hx ->%list_elem_of_singleton. done.
Qed.

(** Of two members of the set, the earlier one is met in the input before
    every occurrence of the later one. *)
Lemma newSet_first_occurrence (l : list (list N)) (i j : nat) (a b : list N) :
  (i < j)%nat → newSet l !! i = Some a → newSet l !! j = Some b →
  ∃ i', l !! i' = Some a ∧ ∀ j', l !! j' = Some b → (i' < j')%nat.
Proof.
  revert i j a b. induction l as [|x l IH] using rev_ind; intros i j a b Hij Ha Hb.
  { done. }
  rewrite newSet_snoc in Ha, Hb. unfold setAdd in Ha, Hb.
  assert (Hlate : ∀ i', (i' < length l)%nat →
            (∀ j', l !! j' = Some b → (i' < j')%nat) →
            ∀ j', (l ++ [x]) !! j' = Some b → (i' < j')%nat).
  { intros i' Hi' Hall j' Hj'. destruct (decide (j' < length l)%nat) as [Hlt|Hge].
    - rewrite lookup_app_l in Hj' by done. by apply Hall.
    - lia. }
  case_decide as Hx.
  - destruct (IH i j a b Hij Ha Hb) as (i' & Hi' & Hall).
    exists i'. split; [by apply lookup_app_l_Some|].
    apply Hlate; [by eapply lookup_lt_Some|done].
  - destruct (decide (j < length (newSet l))%nat) as [Hj|Hj].
    + rewrite lookup_app_l in Ha, Hb by lia.
      destruct (IH i j a b Hij Ha Hb) as (i' & Hi' & Hall).
      exists i'. split; [by apply lookup_app_l_Some|].
      apply Hlate; [by eapply lookup_lt_Some|done].
    + assert (j = length (newSet l)) as ->.
      { apply lookup_lt_Some in Hb. rewrite length_app in Hb. cbn in Hb. lia. }
      rewrite lookup_app_l in Ha by done.
      rewrite list_lookup_middle in Hb by done. injection Hb as <-.
      assert (Hal : a ∈ l) by (apply elem_of_newSet; by eapply list_elem_of_lookup_2).
      apply list_elem_of_lookup_1 in Hal as [i' Hi'].
      exists i'. split; [by apply lookup_app_l_Some|].
      intros j' Hj'. destruct (decide (j' < length l)%nat) as [Hlt|Hge].
      * rewrite lookup_app_l in Hj' by done.
        exfalso. apply Hx, elem_of_newSet. by eapply list_elem_of_lookup_2.
      * apply lookup_lt_Some in Hi'. lia.
Qed.

Lemma slice_1_m1_marker (n : list N) : slice_1_m1 (marker n) = n.
Proof.
  unfold slice_1_m1. rewrite length_marker. unfold marker. cbn.
  rewrite Nat.sub_0_r, drop_0. by rewrite take_app_length.
Qed.

Lemma slice_inj_on_matches (body x y : list N) :
  x ∈ matchAll body → y ∈ matchAll body → slice_1_m1 x = slice_1_m1 y → x = y.
Proof.
  intros (n & _ & _ & -> & _)%matchAll_elem (m & _ & _ & -> & _)%matchAll_elem.
  rewrite !slice_1_m1_marker. by intros ->.
Qed.

Lemma elem_of_variables (t : Template) (n : list N) :
  n ∈ variables (Some t) ↔ marker n ∈ matchAll (t_content t).
Proof.
  unfold variables. rewrite list_elem_of_fmap. split.
  - intros (x & -> & Hx%newSet_subset).
    destruct (matchAll_elem _ _ Hx) as (m & _ & _ & -> & _).
    by rewrite slice_1_m1_marker.
  - intros Hn. exists (marker n). by rewrite slice_1_m1_marker, elem_of_newSet.
Qed.

Lemma variables_occur (t : Template) (n : list N) :
  n ∈ variables (Some t) →
  includes (t_content t) (marker n) = true ∧ (RBRACKET ∉ n) ∧ noLineTerminator n.
Proof.
  intros Hn%elem_of_variables.
  destruct (matchAll_elem _ _ Hn) as (m & a & b & Heq & Hbody & ? & ?).
  apply (f_equal slice_1_m1) in Heq. rewrite !slice_1_m1_marker in Heq. subst m.
  split; [|done]. apply includes_spec. eauto.
Qed.

Lemma matchAll_marker (n r : list N) :
  RBRACKET ∉ n → noLineTerminator n →
  matchAll (marker n ++ r) = marker n :: matchAll r.
Proof.
  intros Hn Hnl. pose proof (matchAt_marker n r Hn Hnl) as Hm.
  rewrite marker_app in *. by rewrite matchAll_cons, Hm, drop_key_bracket.
Qed.

Lemma matchAll_no_bracket (s : list N) : LBRACKET ∉ s → matchAll s = [].
Proof.
  induction s as [|c s IH]; intros Hs; [by simp matchAll|].
  apply not_elem_of_cons in Hs as [Hc Hs].
  rewrite matchAll_cons. cbn [matchAt].
  assert (Hc' : (c =? LBRACKET) = false) by (apply N.eqb_neq; congruence).
  rewrite Hc'. by apply IH.
Qed.

(** ** The fetch of a client's case records *)

Lemma commit_frame (before after : State) :
  processos (commit before after) = processos after
  ∧ selectedCliente (commit before after) = selectedCliente after
  ∧ selectedTemplate (commit before after) = selectedTemplate after
  ∧ clientes (commit before after) = clientes after.
Proof.
  unfold commit, nomeClienteEffect.
  by repeat (case_bool_decide || case_match).
Qed.

Lemma step_settled_invariant (w : World) (e : Event) :
  answersOwnQuery w e = true → picksWhenSettled w e = true →
  processosOfSelected (ui w) ∧ inflightOfSelected w →
  processosOfSelected (ui (step w e).1) ∧ inflightOfSelected (step w e).1.
Proof.
  intros Hans Hpick [Hproc Hfl].
  unfold processosOfSelected, inflightOfSelected in *.
  destruct e as [clienteId|templateId|varName value|k r]; cbn [step].
  - cbn in Hpick. apply bool_decide_eq_true in Hpick.
    cbn [handleSelectCliente fst ui inflight]. rewrite Hpick.
    destruct (commit_frame (ui w) (handleSelectCliente clienteId (ui w)).1)
      as (Hp & Hs & _). cbn [handleSelectCliente fst] in Hp, Hs.
    rewrite Hp, Hs. cbn. split.
    + by intros p ?%elem_of_nil.
    + intros cid. destruct (find _ _) as [c|]; cbn.
      * intros ->%list_elem_of_singleton. by exists c.
      * by intros ?%elem_of_nil.
  - cbn [fst ui inflight].
    destruct (commit_frame (ui w) (handleSelectTemplate templateId (ui w)))
      as (Hp & Hs & _). by rewrite Hp, Hs.
  - cbn [handleVariableChange fst ui inflight].
    destruct (commit_frame (ui w) (handleVariableChange varName value (ui w)).1)
      as (Hp & Hs & _). cbn [handleVariableChange fst] in Hp, Hs.
    by rewrite Hp, Hs.
  - destruct (inflight w !! k) as [cid|] eqn:Hk; [|done].
    assert (Hdel : ∀ cid', cid' ∈ delete k (inflight w) → cid' ∈ inflight w).
    { intros cid' Hin. eapply elem_of_sublist; [done|apply sublist_delete]. }
    destruct r as [|data]; cbn [fetchProcessosByCliente_resolved fst ui inflight].
    { split; [done|]. intros cid' ?%Hdel. by apply Hfl. }
    cbn. split; [|intros cid' ?%Hdel; by apply Hfl].
    destruct data as [data|]; cbn; [|by intros p ?%elem_of_nil].
    cbn in Hans. rewrite Hk in Hans. rewrite forallb_forall in Hans.
    intros p Hp. apply list_elem_of_In, Hans, bool_decide_eq_true in Hp.
    destruct (Hfl cid) as (c & Hc & ->); [by eapply list_elem_of_lookup_2|].
    by exists c.
Qed.

(** ** Markers of unbound variables stay in the preview *)

Lemma foldl_substituteKey_None (vv : gmap (list N) (list N)) (keys : list (list N)) :
  foldl (substituteKey vv) None keys = None.
Proof. by induction keys. Qed.

(** The preview is within the model exactly when every variable is a
    literal key. *)
Lemma foldl_substituteKey_is_Some (vv : gmap (list N) (list N))
    (keys : list (list N)) (msg : list N) :
  is_Some (foldl (substituteKey vv) (Some msg) keys)
  ↔ Forall (λ k, literalKey k = true) keys.
Proof.
  revert msg. induction keys as [|k keys IH]; intros msg; cbn [foldl].
  - split; [constructor|by eexists].
  - rewrite Forall_cons. unfold substituteKey at 2. cbn.
    destruct (literalKey k).
    + rewrite IH. split; [by split|by intros [_ ?]].
    + rewrite foldl_substituteKey_None. split; [by intros [? [=]]|by intros [[=] _]].
Qed.

Lemma generatedMessage_is_Some (t : Template) (vv : gmap (list N) (list N)) :
  is_Some (generatedMessage (Some t) vv)
  ↔ Forall (λ k, literalKey k = true) (variables (Some t)).
Proof. apply foldl_substituteKey_is_Some. Qed.

(** ** Keys with a dot: agreement with the literal keys *)

Lemma replaceDotted_cons (key templ before : list N) (c : N) (s : list N) :
  replaceDotted key templ before (c :: s) =
  if matchesPattern key (c :: s) then
    getSubstitution (c :: take (S (length key)) s) before
                    (drop (S (length key)) s) templ
      ++ replaceDotted key templ (before ++ c :: take (S (length key)) s)
           (drop (S (length key)) s)
  else c :: replaceDotted key templ (before ++ [c]) s.
Proof. simp replaceDotted. by destruct (matchesPattern key (c :: s)). Qed.

Lemma matchesKey_literal (key s : list N) :
  forallb (λ c, negb (isSyntaxCharacter c)) key = true →
  matchesKey key s = isPrefixOf (key ++ [RBRACKET]) s.
Proof.
  revert s. induction key as [|k key IH]; intros s Hkey.
  - destruct s as [|c s]; [done|]. cbn. by rewrite andb_true_r.
  - cbn [forallb] in Hkey. apply andb_true_iff in Hkey as [Hk Hkey].
    destruct s as [|c s]; [done|]. cbn [matchesKey app isPrefixOf].
    rewrite IH by done. destruct (k =? DOT) eqn:Hdot; [|done].
    apply N.eqb_eq in Hdot. subst k. by vm_compute in Hk.
Qed.

Lemma matchesPattern_literal (key s : list N) :
  literalKey key = true → matchesPattern key s = isPrefixOf (marker key) s.
Proof.
  intros [Hkey _]%andb_true_iff. destruct s as [|c s]; [done|].
  rewrite isPrefixOf_marker_cons. cbn [matchesPattern].
  by rewrite matchesKey_literal.
Qed.

Lemma literalKey_dottedKey (key : list N) : literalKey key = true → dottedKey key = true.
Proof.
  unfold literalKey, dottedKey. intros [Hkey Hown]%andb_true_iff.
  apply andb_true_iff. split; [|done].
  rewrite forallb_forall in *. intros c Hc. rewrite (Hkey c Hc). apply orb_true_r.
Qed.

(** For a literal key the two replacements are one. *)
Lemma replaceDotted_literal (key templ before s : list N) :
  literalKey key = true →
  replaceDotted key templ before s = replaceFrom key templ before s.
Proof.
  intros Hkey. revert before.
  induction s as [s IH] using length_ind. intros before.
  destruct s as [|c s]; [by simp replaceDotted replaceFrom|].
  rewrite replaceDotted_cons, replaceFrom_cons, matchesPattern_literal by done.
  destruct (isPrefixOf (marker key) (c :: s)) eqn:Hp.
  - apply isPrefixOf_spec in Hp as [r Hr]. rewrite marker_app in Hr.
    injection Hr as -> ->.
    assert (Htake : LBRACKET :: take (S (length key)) (key ++ RBRACKET :: r)
                    = marker key).
    { unfold marker. f_equal.
      rewrite (assoc_L (++) key [RBRACKET] r : key ++ RBRACKET :: r = _).
      apply take_app_length'. rewrite length_app. cbn. lia. }
    rewrite Htake, drop_key_bracket. f_equal.
    apply IH. cbn. rewrite length_app. cbn. lia.
  - f_equal. apply IH. cbn. lia.
Qed.

Lemma substituteDottedKey_literal (vv : gmap (list N) (list N))
    (message : option (list N)) (key : list N) :
  literalKey key = true →
  substituteDottedKey vv message key = substituteKey vv message key.
Proof.
  intros Hkey. unfold substituteDottedKey, substituteKey, replaceMarker.
  destruct message as [m|]; [|done]. cbn.
  by rewrite Hkey, literalKey_dottedKey, replaceDotted_literal.
Qed.

(** Where the names are literal keys the preview is the one of
    [generatedMessage]. *)
Lemma generatedMessageDotted_extends (t : option Template)
    (vv : gmap (list N) (list N)) (m : list N) :
  generatedMessage t vv = Some m → generatedMessageDotted t vv = Some m.
Proof.
  destruct t as [t|]; [|done]. intros Hm.
  assert (Hlit : Forall (λ k, literalKey k = true) (variables (Some t))).
  { apply (proj1 (generatedMessage_is_Some t vv)). by eexists. }
  rewrite <- Hm. unfold generatedMessageDotted, generatedMessage.
  generalize (Some (t_content t)).
  induction Hlit as [|k keys Hk Hkeys IH]; intros acc; [done|].
  cbn [foldl]. by rewrite substituteDottedKey_literal, IH.
Qed.

Lemma valueOrMarker_unbound (vv : gmap (list N) (list N)) (n : list N) :
  unbound vv n → valueOrMarker vv n = marker n.
Proof. unfold valueOrMarker. by intros [->| ->]. Qed.

Lemma foldl_keeps_unbound_marker (vv : gmap (list N) (list N))
    (keys : list (list N)) (msg m n : list N) :
  plainName n → unbound vv n →
  foldl (substituteKey vv) (Some msg) keys = Some m →
  includes msg (marker n) = true → includes m (marker n) = true.
Proof.
  intros Hn Hun. revert msg.
  induction keys as [|k keys IH]; intros msg; cbn [foldl].
  { by intros [= ->]. }
  unfold substituteKey at 2. cbn. destruct (literalKey k) eqn:Hk.
  2: { by rewrite foldl_substituteKey_None. }
  intros Hfold Hinc. apply (IH _ Hfold). unfold replaceMarker.
  destruct (decide (k = n)) as [->|Hne].
  - rewrite valueOrMarker_unbound by done.
    rewrite replaceFrom_id; [done|]. apply Hn.
  - apply includes_spec in Hinc as (a & b & ->).
    apply includes_spec, replaceFrom_keeps_marker; [|done..].
    by apply literalKey_plain.
Qed.

(** The marker of a variable without a value is in the preview. *)
Lemma unbound_marker_in_preview (t : Template) (vv : gmap (list N) (list N))
    (m n : list N) :
  generatedMessage (Some t) vv = Some m →
  n ∈ variables (Some t) → unbound vv n →
  includes m (marker n) = true.
Proof.
  intros Hm Hn Hun.
  assert (Hlit : Forall (λ k, literalKey k = true) (variables (Some t))).
  { apply (proj1 (generatedMessage_is_Some t vv)). by eexists. }
  rewrite Forall_forall in Hlit.
  eapply foldl_keeps_unbound_marker; [..|exact Hm|].
  - by apply literalKey_plain, Hlit.
  - done.
  - by apply variables_occur.
Qed.

(** A variable without a value makes the completeness guard fire. *)
Lemma unbound_variable_incomplete (t : Template) (vv : gmap (list N) (list N))
    (m n : list N) :
  generatedMessage (Some t) vv = Some m →
  n ∈ variables (Some t) → unbound vv n →
  incomplete (variables (Some t)) m = true.
Proof.
  intros Hm Hn Hun. unfold incomplete. apply orb_true_iff. right.
  apply existsb_exists. exists n. split; [by apply list_elem_of_In|].
  by apply (unbound_marker_in_preview t vv).
Qed.

(** ** The template as text and markers *)

Lemma tokenize_cons (c : N) (s : list N) :
  tokenize (c :: s) =
  match matchAt (c :: s) with
  | Some n => Mark n :: tokenize (drop (S (length n)) s)
  | None => Ch c :: tokenize s
  end.
Proof. simp tokenize. by destruct (matchAt (c :: s)). Qed.

Lemma flatten_cons (tok : Token) (toks : list Token) :
  flatten (tok :: toks) = tokenText tok ++ flatten toks.
Proof. done. Qed.

Lemma flatten_tokenize (s : list N) : flatten (tokenize s) = s.
Proof.
  induction s as [|c s n Hm Hs Hn Hnl IH|c s Hm IH] using scan_ind.
  - by simp tokenize.
  - rewrite tokenize_cons, Hm, flatten_cons, IH. cbn [tokenText]. by symmetry.
  - by rewrite tokenize_cons, Hm, flatten_cons, IH.
Qed.

Lemma marks_cons (tok : Token) (toks : list Token) :
  marks (tok :: toks)
  = match tok with Mark n => marker n :: marks toks | _ => marks toks end.
Proof. by destruct tok. Qed.

Lemma marks_tokenize (s : list N) : marks (tokenize s) = matchAll s.
Proof.
  induction s as [|c s n Hm Hs Hn Hnl IH|c s Hm IH] using scan_ind.
  - by simp tokenize matchAll.
  - by rewrite tokenize_cons, matchAll_cons, Hm, marks_cons, IH.
  - by rewrite tokenize_cons, matchAll_cons, Hm, marks_cons, IH.
Qed.

Lemma openRun_lazyBody (toks : list Token) :
  openRun toks → lazyBody (flatten toks) = None.
Proof.
  induction toks as [|[c|n|v] toks IH]; cbn [openRun]; [done| |done..].
  intros [Hc Hrest]. rewrite flatten_cons. cbn [tokenText app lazyBody].
  assert (Hc' : (c =? RBRACKET) = false) by by apply N.eqb_neq.
  rewrite Hc'. destruct (isLineTerminator c); [done|].
  destruct Hrest as [?|Hrest]; [done|]. by rewrite IH.
Qed.

Lemma lazyBody_None_openRun (s : list N) :
  lazyBody s = None → openRun (tokenize s).
Proof.
  induction s as [|c s IH]; [by simp tokenize|].
  cbn [lazyBody]. destruct (c =? RBRACKET) eqn:Hc; [done|].
  apply N.eqb_neq in Hc. rewrite tokenize_cons. cbn [matchAt].
  destruct (isLineTerminator c) eqn:Hlt.
  - intros _. assert (Hb : (c =? LBRACKET) = false).
    { apply N.eqb_neq. intros ->. by vm_compute in Hlt. }
    rewrite Hb. cbn. auto.
  - destruct (lazyBody s) eqn:Hs; [done|]. intros _.
    destruct (c =? LBRACKET); cbn; auto.
Qed.

(** When no captured text has an opening bracket, the scan yields a
    well-formed sequence. *)
Lemma wellFormed_tokenize (s : list N) :
  (∀ n, marker n ∈ matchAll s → LBRACKET ∉ n) → wellFormed (tokenize s).
Proof.
  induction s as [|c s n Hm Hs Hn Hnl IH|c s Hm IH] using scan_ind.
  - by simp tokenize.
  - rewrite matchAll_cons, tokenize_cons, Hm. intros Hall.
    cbn [wellFormed tokenOk]. repeat split; try done.
    + apply Hall. by left.
    + apply IH. intros n' Hn'. apply Hall. by right.
  - rewrite matchAll_cons, tokenize_cons, Hm. intros Hall.
    cbn [wellFormed tokenOk]. split; [|by apply IH].
    intros ->. apply lazyBody_None_openRun. apply Hm.
Qed.

Lemma openRun_fmap (f : Token → Token) (toks : list Token) :
  (∀ c, f (Ch c) = Ch c) → openRun toks → openRun (f <$> toks).
Proof.
  intros Hf. induction toks as [|[c|n|v] toks IH]; cbn [openRun]; try done.
  rewrite fmap_cons, Hf. cbn [openRun]. intros [? [?|?]]; auto.
Qed.

Lemma wellFormed_fmap (f : Token → Token) (toks : list Token) :
  (∀ c, f (Ch c) = Ch c) →
  (∀ tok rest, tokenOk tok rest → ∀ rest', tok = f tok ∨ tokenOk (f tok) rest') →
  wellFormed toks → wellFormed (f <$> toks).
Proof.
  intros Hch Hf. induction toks as [|tok toks IH]; [done|].
  cbn [wellFormed]. intros [Hok Hwf]. rewrite fmap_cons. cbn [wellFormed].
  split; [|by apply IH].
  destruct (Hf tok toks Hok (f <$> toks)) as [Heq|?]; [|done].
  rewrite <- Heq. destruct tok as [c|n|v]; try done.
  cbn in *. intros Hc. by apply openRun_fmap, Hok.
Qed.

Lemma no_match_at_open (k s : list N) :
  lazyBody s = None → (RBRACKET ∉ k) → noLineTerminator k →
  isPrefixOf (marker k) (LBRACKET :: s) = false.
Proof.
  intros Hs Hk Hnl. destruct (isPrefixOf _ _) eqn:Hp; [|done].
  apply isPrefixOf_spec in Hp as [r Hr]. rewrite marker_app in Hr.
  injection Hr as ->. by rewrite lazyBody_marker in Hs.
Qed.

Lemma no_match_at_other_marker (k n s : list N) :
  RBRACKET ∉ k → RBRACKET ∉ n → k ≠ n →
  isPrefixOf (marker k) (marker n ++ s) = false.
Proof.
  intros Hk Hn Hne. destruct (isPrefixOf _ _) eqn:Hp; [|done].
  apply isPrefixOf_spec in Hp as [r Hr]. rewrite !marker_app in Hr.
  injection Hr as Hr. by apply key_bracket_inj in Hr as [-> _].
Qed.

Lemma marker_tail_no_bracket (n : list N) :
  LBRACKET ∉ n → LBRACKET ∉ n ++ [RBRACKET].
Proof.
  intros Hn. rewrite elem_of_app, list_elem_of_singleton. by intros [?|?].
Qed.

Lemma marker_tail_app (n s : list N) :
  marker n ++ s = LBRACKET :: (n ++ [RBRACKET]) ++ s.
Proof. done. Qed.

Lemma no_match_at_Ch (k : list N) (c : N) (rest : list Token) :
  tokenOk (Ch c) rest → RBRACKET ∉ k → noLineTerminator k →
  isPrefixOf (marker k) (c :: flatten rest) = false.
Proof.
  intros Hok Hk Hnl. destruct (decide (c = LBRACKET)) as [->|Hc].
  - apply no_match_at_open; [|done..]. by apply openRun_lazyBody, Hok.
  - by apply isPrefixOf_marker_other.
Qed.

Lemma replaceFrom_tokens (k v : list N) (toks : list Token) (before : list N) :
  plainName k → noLineTerminator k → DOLLAR ∉ v → wellFormed toks →
  replaceFrom k v before (flatten toks) = flatten (substToken k v <$> toks).
Proof.
  intros (Hk1 & Hk2 & Hk3) Hknl Hv. revert before.
  induction toks as [|tok toks IH]; intros before; [by simp replaceFrom|].
  cbn [wellFormed]. intros [Hok Hwf]. rewrite fmap_cons, !flatten_cons.
  destruct tok as [c|n|w]; cbn [tokenText substToken].
  - cbn [app]. by rewrite replaceFrom_cons, no_match_at_Ch, IH.
  - destruct Hok as (Hn1 & Hn2 & Hnl). case_decide as Hnk.
    + subst n. rewrite replaceFrom_match, getSubstitution_plain by done.
      cbn [tokenText]. by rewrite IH.
    + pose proof (no_match_at_other_marker k n (flatten toks) Hk2 Hn2) as Hp.
      rewrite marker_tail_app in *.
      rewrite replaceFrom_cons, Hp by congruence.
      rewrite replaceFrom_skip by by apply marker_tail_no_bracket.
      cbn [tokenText]. rewrite marker_tail_app. by rewrite IH.
  - rewrite replaceFrom_skip by done. by rewrite IH.
Qed.

Lemma wellFormed_substToken (k v : list N) (toks : list Token) :
  LBRACKET ∉ v → wellFormed toks → wellFormed (substToken k v <$> toks).
Proof.
  intros Hv. apply wellFormed_fmap; [done|].
  intros [c|n|w] rest Hok rest'; cbn; [by left| |by left].
  case_decide; [by right|by left].
Qed.

Lemma matchAll_skip (v s : list N) :
  LBRACKET ∉ v → matchAll (v ++ s) = matchAll s.
Proof.
  induction v as [|c v IH]; [done|]. intros [Hc Hv]%not_elem_of_cons.
  cbn [app]. rewrite matchAll_cons. cbn [matchAt].
  assert (Hc' : (c =? LBRACKET) = false) by (apply N.eqb_neq; congruence).
  rewrite Hc'. by apply IH.
Qed.

(** The matches of a well-formed sequence are its markers. *)
Lemma matchAll_tokens (toks : list Token) :
  wellFormed toks → matchAll (flatten toks) = marks toks.
Proof.
  induction toks as [|tok toks IH]; [by simp matchAll|].
  cbn [wellFormed]. intros [Hok Hwf]. rewrite flatten_cons.
  destruct tok as [c|n|w]; cbn [tokenText tokenOk] in *.
  - cbn [app]. rewrite matchAll_cons. cbn [matchAt].
    destruct (c =? LBRACKET) eqn:Hc.
    + apply N.eqb_eq in Hc. rewrite openRun_lazyBody by by apply Hok.
      by apply IH.
    + by apply IH.
  - destruct Hok as (_ & Hn & Hnl).
    by rewrite matchAll_marker, marks_cons, IH.
  - rewrite matchAll_skip by done. by apply IH.
Qed.

Lemma matchAll_reading (toks : list Token) :
  reading toks → matchAll (flatten toks) = marks toks.
Proof.
  induction toks as [|tok toks IH]; [by simp matchAll|].
  cbn [reading]. intros [Hok Hwf]. rewrite flatten_cons.
  destruct tok as [c|n|w]; cbn [tokenText tokenRead] in *.
  - cbn [app]. rewrite matchAll_cons. cbn [matchAt].
    destruct (c =? LBRACKET) eqn:Hc.
    + apply N.eqb_eq in Hc. rewrite openRun_lazyBody by by apply Hok.
      by apply IH.
    + by apply IH.
  - destruct Hok as (Hn & Hnl).
    by rewrite matchAll_marker, marks_cons, IH.
  - rewrite matchAll_skip by done. by apply IH.
Qed.

Lemma reading_tokenize (s : list N) : reading (tokenize s).
Proof.
  induction s as [|c s n Hm Hs Hn Hnl IH|c s Hm IH] using scan_ind.
  - by simp tokenize.
  - rewrite tokenize_cons, Hm. cbn [reading tokenRead]. by repeat split.
  - rewrite tokenize_cons, Hm. cbn [reading tokenRead]. split; [|done].
    intros ->. apply lazyBody_None_openRun. apply Hm.
Qed.

Lemma slice_marks (toks : list Token) : slice_1_m1 <$> marks toks = markNames toks.
Proof.
  induction toks as [|[c|n|v] toks IH]; [done|exact IH| |exact IH].
  unfold marks, markNames in *. cbn [omap list_omap]. rewrite fmap_cons.
  by rewrite slice_1_m1_marker, IH.
Qed.

Lemma elem_of_markNames (toks : list Token) (n : list N) :
  n ∈ markNames toks ↔ Mark n ∈ toks.
Proof.
  unfold markNames. rewrite list_elem_of_omap. split.
  - intros ([c|m|v] & Hin & Heq); try done. by injection Heq as ->.
  - intros Hin. by exists (Mark n).
Qed.

Lemma includes_cons (c : N) (hay needle : list N) :
  includes (c :: hay) needle = isPrefixOf needle (c :: hay) || includes hay needle.
Proof. done. Qed.

Lemma includes_skip (k v s : list N) :
  LBRACKET ∉ v → includes (v ++ s) (marker k) = includes s (marker k).
Proof.
  induction v as [|c v IH]; [done|]. intros [Hc Hv]%not_elem_of_cons.
  cbn [app]. rewrite includes_cons, isPrefixOf_marker_other by congruence.
  by apply IH.
Qed.

(** In a well-formed sequence the marker of a key occurs only as a token. *)
Lemma includes_tokens (k : list N) (toks : list Token) :
  plainName k → noLineTerminator k → wellFormed toks →
  includes (flatten toks) (marker k) = true → Mark k ∈ toks.
Proof.
  intros (Hk1 & Hk2 & Hk3) Hknl. induction toks as [|tok toks IH].
  { intros _ (a & b & Hab)%includes_spec. rewrite marker_app in Hab.
    by destruct a. }
  cbn [wellFormed]. intros [Hok Hwf]. rewrite flatten_cons.
  destruct tok as [c|n|w]; cbn [tokenText].
  - cbn [app]. rewrite includes_cons, no_match_at_Ch by done.
    intros ?. right. by apply IH.
  - destruct (decide (n = k)) as [->|Hnk]; [intros; by left|].
    destruct Hok as (Hn1 & Hn2 & Hnl).
    pose proof (no_match_at_other_marker k n (flatten toks) Hk2 Hn2) as Hp.
    rewrite marker_tail_app in *. rewrite includes_cons, Hp by congruence.
    rewrite includes_skip by by apply marker_tail_no_bracket.
    intros ?. right. by apply IH.
  - rewrite includes_skip by done. intros ?. right. by apply IH.
Qed.

(** ** The preview as a substitution, one marker at a time *)

Section Rounds.
Context (vv : gmap (list N) (list N)).

Lemma substituteKey_tokens (k : list N) (toks : list Token) :
  literalKey k = true → noLineTerminator k →
  (∀ v, vv !! k = Some v → cleanValue v) → wellFormed toks →
  substituteKey vv (Some (flatten toks)) k = Some (flatten (bindKey vv k <$> toks))
  ∧ wellFormed (bindKey vv k <$> toks).
Proof.
  intros Hlit Hnl Hclean Hwf. unfold substituteKey. cbn. rewrite Hlit.
  pose proof (literalKey_plain k Hlit) as Hk. unfold replaceMarker, valueOrMarker.
  destruct (vv !! k) as [[|c v]|] eqn:Hv.
  2: { (* a value that is not empty takes the place of the marker *)
    destruct (Hclean _ eq_refl) as [Hv1 Hv2].
    rewrite replaceFrom_tokens by done.
    assert (Hext : substToken k (c :: v) <$> toks = bindKey vv k <$> toks).
    { apply list_fmap_ext. intros i [c'|n|w] _; cbn; try done.
      case_decide; [subst n|done]. by rewrite Hv. }
    rewrite <- Hext. split; [done|]. by apply wellFormed_substToken. }
  (* no value, or an empty one: the marker is replaced by itself *)
  all: rewrite replaceFrom_id by apply Hk.
  all: replace (bindKey vv k <$> toks) with toks; [done|].
  all: rewrite <- (list_fmap_id toks) at 1; apply list_fmap_ext.
  all: intros i [c|n|w] _; cbn; try done.
  all: case_decide; [subst n|done]; by rewrite Hv.
Qed.

Lemma foldl_tokens (keys : list (list N)) (toks : list Token) :
  Forall (λ k, literalKey k = true) keys → Forall noLineTerminator keys →
  (∀ k v, k ∈ keys → vv !! k = Some v → cleanValue v) → wellFormed toks →
  foldl (substituteKey vv) (Some (flatten toks)) keys
  = Some (flatten (bindKeys vv keys <$> toks))
  ∧ wellFormed (bindKeys vv keys <$> toks).
Proof.
  revert toks. induction keys as [|k keys IH]; intros toks Hlit Hnl Hclean Hwf.
  { cbn [foldl]. unfold bindKeys. cbn [foldl]. by rewrite list_fmap_id. }
  apply Forall_cons in Hlit as [Hk Hlit], Hnl as [Hknl Hnl].
  cbn [foldl].
  destruct (substituteKey_tokens k toks) as [-> Hwf']; try done.
  { intros v. apply Hclean. by left. }
  destruct (IH (bindKey vv k <$> toks)) as [-> Hwf'']; try done.
  { intros k' v ?. apply Hclean. by right. }
  rewrite <- list_fmap_compose in *. done.
Qed.

Lemma bindKeys_Ch (keys : list (list N)) (c : N) :
  bindKeys vv keys (Ch c) = Ch c.
Proof. by induction keys. Qed.

Lemma bindKeys_Val (keys : list (list N)) (v : list N) :
  bindKeys vv keys (Val v) = Val v.
Proof. by induction keys. Qed.

Lemma bindToken_Mark (n : list N) :
  bindToken vv (Mark n) = Mark n ∨ ∃ v, bindToken vv (Mark n) = Val v.
Proof. cbn. destruct (vv !! n) as [[|c v]|]; eauto. Qed.

Lemma bindKeys_Mark (keys : list (list N)) (n : list N) :
  bindKeys vv keys (Mark n)
  = if decide (n ∈ keys) then bindToken vv (Mark n) else Mark n.
Proof.
  induction keys as [|k keys IH].
  { cbn. case_decide as H; [by apply elem_of_nil in H|done]. }
  unfold bindKeys in *. cbn [foldl bindKey].
  destruct (decide (n = k)) as [->|Hnk].
  - rewrite decide_True by by left.
    destruct (bindToken_Mark k) as [Hb|[v Hb]]; rewrite Hb in *.
    + rewrite IH. by case_decide.
    + apply bindKeys_Val.
  - rewrite IH. destruct (decide (n ∈ keys)) as [Hin|Hin].
    + rewrite decide_True; [done|by right].
    + rewrite decide_False; [done|]. by intros [?|?]%elem_of_cons.
Qed.

End Rounds.

Lemma Mark_tokenize_variables (t : Template) (n : list N) :
  Mark n ∈ tokenize (t_content t) ↔ n ∈ variables (Some t).
Proof.
  rewrite elem_of_variables, <- marks_tokenize. unfold marks.
  rewrite list_elem_of_omap. split.
  - intros Hn. by exists (Mark n).
  - intros ([c|n'|v] & Hin & Heq); try done.
    apply (f_equal (fmap slice_1_m1)) in Heq. cbn [fmap option_fmap option_map] in Heq.
    rewrite !slice_1_m1_marker in Heq. by injection Heq as ->.
Qed.

Lemma literal_variables_facts (t : Template) :
  forallb literalKey (variables (Some t)) = true →
  Forall (λ k, literalKey k = true) (variables (Some t))
  ∧ Forall noLineTerminator (variables (Some t))
  ∧ wellFormed (tokenize (t_content t)).
Proof.
  intros Hlit. rewrite forallb_forall in Hlit.
  assert (Hall : Forall (λ k, literalKey k = true) (variables (Some t))).
  { apply Forall_forall. intros k Hk. by apply Hlit, list_elem_of_In. }
  split; [done|]. split.
  - apply Forall_forall. intros k Hk. by apply variables_occur in Hk as (_ & _ & ?).
  - apply wellFormed_tokenize. intros n Hn%elem_of_variables.
    rewrite Forall_forall in Hall. by apply literalKey_plain, Hall.
Qed.

(** With literal names and clean values, the preview is the body with each
    marker replaced by its value, all at once. *)
Lemma generatedMessage_renderSpec (t : Template) (vv : gmap (list N) (list N)) :
  forallb literalKey (variables (Some t)) = true → cleanValues t vv →
  generatedMessage (Some t) vv = Some (renderSpec (t_content t) vv)
  ∧ wellFormed (bindToken vv <$> tokenize (t_content t)).
Proof.
  intros (Hlit & Hnl & Hwf)%literal_variables_facts Hclean.
  unfold generatedMessage, renderSpec.
  rewrite <- (flatten_tokenize (t_content t)) at 1.
  destruct (foldl_tokens vv (variables (Some t)) (tokenize (t_content t))
              Hlit Hnl Hclean Hwf) as [-> Hwf'].
  assert (Hext : bindKeys vv (variables (Some t)) <$> tokenize (t_content t)
                 = bindToken vv <$> tokenize (t_content t)).
  { apply list_fmap_ext. intros i [c|n|v] Hi.
    - apply bindKeys_Ch.
    - rewrite bindKeys_Mark, decide_True; [done|].
      apply Mark_tokenize_variables. by eapply list_elem_of_lookup_2.
    - apply bindKeys_Val. }
  by rewrite <- Hext.
Qed.

(** With literal names and clean values before and after, a new value for
    one name changes the preview at the markers of that name only: the two
    previews are the same sequence of tokens, bound alike but for those
    markers. *)
Lemma preview_changes_at_marker_only (t : Template)
    (vv : gmap (list N) (list N)) (n v : list N) :
  forallb literalKey (variables (Some t)) = true →
  cleanValues t vv → cleanValues t (<[n:=v]> vv) →
  generatedMessage (Some t) vv
  = Some (flatten (bindToken vv <$> tokenize (t_content t)))
  ∧ generatedMessage (Some t) (<[n:=v]> vv)
    = Some (flatten (bindToken (<[n:=v]> vv) <$> tokenize (t_content t)))
  ∧ ∀ tok, tok ≠ Mark n → bindToken (<[n:=v]> vv) tok = bindToken vv tok.
Proof.
  intros Hlit Hclean Hclean'.
  destruct (generatedMessage_renderSpec t vv Hlit Hclean) as [-> _].
  destruct (generatedMessage_renderSpec t _ Hlit Hclean') as [-> _].
  repeat split. intros [c|k|w] Hne; cbn; try done.
  rewrite lookup_insert_ne; [done|congruence].
Qed.

Lemma tokenize_no_Val (s : list N) (v : list N) : Val v ∉ tokenize s.
Proof.
  induction s as [|c s n Hm Hs Hn Hnl IH|c s Hm IH] using scan_ind.
  - simp tokenize. apply not_elem_of_nil.
  - rewrite tokenize_cons, Hm. by apply not_elem_of_cons.
  - rewrite tokenize_cons, Hm. by apply not_elem_of_cons.
Qed.

Lemma Mark_bindToken (vv : gmap (list N) (list N)) (toks : list Token) (k : list N) :
  Mark k ∈ bindToken vv <$> toks ↔ Mark k ∈ toks ∧ unbound vv k.
Proof.
  rewrite list_elem_of_fmap. unfold unbound. split.
  - intros ([c|n|v] & Heq & Hin); cbn in Heq; try done.
    destruct (vv !! n) as [[|c v]|] eqn:Hn; try done; injection Heq as ->; auto.
  - intros [Hin Hun]. exists (Mark k). split; [|done].
    cbn. by destruct Hun as [-> | ->].
Qed.

Lemma marks_nil (toks : list Token) : marks toks = [] ↔ ∀ n, Mark n ∉ toks.
Proof.
  induction toks as [|tok toks IH].
  { split; [intros _ n; apply not_elem_of_nil|done]. }
  unfold marks in *. cbn [omap list_omap]. destruct tok as [c|n|v].
  - rewrite IH. split; intros H n.
    + apply not_elem_of_cons. split; [done|apply H].
    + specialize (H n). by apply not_elem_of_cons in H as [_ ?].
  - split; [done|]. intros H. exfalso. apply (H n). by left.
  - rewrite IH. split; intros H n.
    + apply not_elem_of_cons. split; [done|apply H].
    + specialize (H n). by apply not_elem_of_cons in H as [_ ?].
Qed.

Lemma bound_or_unbound (vv : gmap (list N) (list N)) (n : list N) :
  (∃ v, vv !! n = Some v ∧ v ≠ []) ∨ unbound vv n.
Proof.
  unfold unbound. destruct (vv !! n) as [[|c v]|]; [by right; right| |by right; left].
  left. by exists (c :: v).
Qed.

Lemma allBound_no_Mark (t : Template) (vv : gmap (list N) (list N)) :
  allBound t vv ↔ ∀ n, Mark n ∉ bindToken vv <$> tokenize (t_content t).
Proof.
  split.
  - intros Hall n [Hin Hun]%Mark_bindToken.
    apply Mark_tokenize_variables, Hall in Hin as (v & Hv & Hne).
    destruct Hun as [Hun|Hun]; rewrite Hun in Hv; [done|]. by injection Hv as <-.
  - intros Hno n Hn. destruct (bound_or_unbound vv n) as [?|Hun]; [done|].
    exfalso. apply (Hno n), Mark_bindToken. split; [|done].
    by apply Mark_tokenize_variables.
Qed.

(** ** The preview on particular inputs *)

(** The scenario of the three variables, all with a value. *)
Example preview_maria :
  generatedMessage (Some modelo) valoresMaria
  = Some (lit "Ol" ++ [225] ++ lit " Maria, seu processo 123/2024 est" ++ [225]
            ++ lit " Em Andamento.")
  ∧ isComplete modelo valoresMaria = Some true.
Proof. split; vm_compute; reflexivity. Qed.

(** The same template with the status left without a value. *)
Example preview_maria_sem_status :
  generatedMessage (Some modelo) (delete status_processo valoresMaria)
  = Some (lit "Ol" ++ [225] ++ lit " Maria, seu processo 123/2024 est" ++ [225]
            ++ lit " [status_processo].")
  ∧ isComplete modelo (delete status_processo valoresMaria) = Some false.
Proof. split; vm_compute; reflexivity. Qed.

Example variables_ex :
  variables (Some (tpl (lit "a [x][y] [x] [z"))) = [lit "x"; lit "y"].
Proof. vm_compute. reflexivity. Qed.

Example generated_ex :
  generatedMessage (Some (tpl (lit "a [x][y] [x] [z")))
     (<[lit "x" := lit "$$1"]> ∅) = Some (lit "a $1[y] $1 [z").
Proof. vm_compute. reflexivity. Qed.

Example encode_ex :
  encodeURIComponent (lit "Ol" ++ [225] ++ lit " a/b" ++ [55357; 56832])
  = Some (lit "Ol%C3%A1%20a%2Fb%F0%9F%98%80").
Proof. vm_compute. reflexivity. Qed.

(** * The claims *)

(** C1, as stated, fails: the binding of [status_processo], whose control is
    the select over the fixed status labels (an EnumeratedSelect slot), is
    dropped when another client is selected. *)
Lemma C1_status_binding_dropped :
  classify status_processo = EnumeratedSelect
  ∧ variableValues c1_state !! status_processo = Some (lit "Em Andamento")
  ∧ variableValues (ui (step c1_world (SelectCliente (lit "B"))).1)
      !! status_processo = None.
Proof. repeat split; vm_compute; reflexivity. Qed.

(** C1 (amended): selecting a client removes the bindings of
    [numero_processo] (the RelationalSelect slot) and of [status_processo],
    and keeps every other binding as it is; the client found for the id
    becomes the selected one, and the effect that follows touches
    [nome_cliente] alone: it binds it to the name of that client when the
    selection changed to a loaded client and the template has that variable,
    and leaves it as it was otherwise. *)
Theorem C1_select_cliente_bindings (w : World) (clienteId k : list N) :
  let w' := (step w (SelectCliente clienteId)).1 in
  (classify k = RelationalSelect → variableValues (ui w') !! k = None)
  ∧ (k = status_processo → variableValues (ui w') !! k = None)
  ∧ (k ≠ numero_processo → k ≠ status_processo → k ≠ nome_cliente →
     variableValues (ui w') !! k = variableValues (ui w) !! k)
  ∧ selectedCliente (ui w')
    = find (λ c, bool_decide (c_id c = clienteId)) (clientes (ui w))
  ∧ (k = nome_cliente →
     variableValues (ui w') !! k
     = match find (λ c, bool_decide (c_id c = clienteId)) (clientes (ui w)) with
       | Some c =>
           if bool_decide (selectedCliente (ui w) ≠ Some c
                           ∧ nome_cliente ∈ variables (selectedTemplate (ui w)))
           then Some (c_nome c)
           else variableValues (ui w) !! k
       | None => variableValues (ui w) !! k
       end).
Proof.
  cbn zeta. cbn [step handleSelectCliente fst ui].
  split; [|split; [|split; [|split]]].
  - unfold classify. case_decide as Hk; [subst k|by repeat case_decide].
    intros _. rewrite commit_variableValues by done. cbn.
    rewrite lookup_delete_ne by done. apply lookup_delete_eq.
  - intros ->. rewrite commit_variableValues by done. cbn.
    apply lookup_delete_eq.
  - intros H1 H2 H3. rewrite commit_variableValues by done. cbn.
    by rewrite !lookup_delete_ne.
  - unfold commit, nomeClienteEffect. cbn [selectedCliente selectedTemplate].
    by repeat (case_bool_decide || case_match).
  - intros ->.
    destruct (find _ (clientes (ui w))) as [c|] eqn:Hfind.
    + unfold commit. cbn [selectedCliente selectedTemplate].
      case_bool_decide as Hdeps.
      * destruct Hdeps as [Hsame _].
        rewrite bool_decide_eq_false_2 by (intros [? _]; congruence).
        cbn. by rewrite !lookup_delete_ne.
      * unfold nomeClienteEffect. cbn [selectedCliente selectedTemplate].
        assert (Hnew : selectedCliente (ui w) ≠ Some c).
        { intros Hsame. apply Hdeps. by split. }
        case_bool_decide as Hin.
        -- rewrite bool_decide_eq_true_2 by done. cbn. apply lookup_insert_eq.
        -- rewrite bool_decide_eq_false_2 by (by intros [_ ?]).
           cbn. by rewrite !lookup_delete_ne.
    + unfold commit, nomeClienteEffect. cbn [selectedCliente selectedTemplate].
      case_bool_decide; cbn; by rewrite !lookup_delete_ne.
Qed.

Lemma C1_select_cliente_bindings_witness :
  variableValues (ui (step c1_seed_world (SelectCliente (lit "B"))).1)
    !! numero_processo = None
  ∧ variableValues (ui (step c1_seed_world (SelectCliente (lit "B"))).1)
      !! data_audiencia
    = variableValues (ui c1_seed_world) !! data_audiencia
  ∧ selectedCliente (ui (step c1_seed_world (SelectCliente (lit "B"))).1) = Some bia
  ∧ variableValues (ui (step c1_seed_world (SelectCliente (lit "B"))).1)
      !! nome_cliente = Some (lit "Bia").
Proof.
  split; [|split; [|split]].
  - destruct (C1_select_cliente_bindings c1_seed_world (lit "B") numero_processo)
      as (H & _). exact (H eq_refl).
  - destruct (C1_select_cliente_bindings c1_seed_world (lit "B") data_audiencia)
      as (_ & _ & H & _). apply H; vm_compute; discriminate.
  - destruct (C1_select_cliente_bindings c1_seed_world (lit "B") nome_cliente)
      as (_ & _ & _ & H & _). exact H.
  - destruct (C1_select_cliente_bindings c1_seed_world (lit "B") nome_cliente)
      as (_ & _ & _ & _ & H). exact (H eq_refl).
Defined.

(** C2, as stated, fails: the answer to Ana's query, arriving while Bia is
    selected, becomes the list on offer. *)
Lemma C2_stale_answer_installed :
  allAlong answersOwnQuery (initialWorld [ana; bia] []) staleTrace = true
  ∧ selectedCliente (ui (run (initialWorld [ana; bia] []) staleTrace)) = Some bia
  ∧ processos (ui (run (initialWorld [ana; bia] []) staleTrace)) = [processoDeAna]
  ∧ p_cliente_id processoDeAna ≠ c_id bia
  ∧ ¬ processosOfSelected (ui (run (initialWorld [ana; bia] []) staleTrace)).
Proof.
  repeat split; try (vm_compute; congruence).
  intros H. destruct (H processoDeAna) as (c & Hc & Hid).
  - vm_compute. by left.
  - vm_compute in Hc. injection Hc as <-. by vm_compute in Hid.
Qed.

(** C2 (amended): the answer of a query becomes the list on offer when it
    arrives, for whichever client it was asked and whoever is selected by
    then; picking a client empties the list at once; and along a run in which
    a client is picked only when no query is waiting, the rows on offer
    always belong to the selected client. *)
Theorem C2_answers_installed_on_arrival :
  (∀ (w : World) (k : nat) (cid : list N) (data : list SupaProcesso),
     inflight w !! k = Some cid →
     processos (ui (step w (ProcessosResolved k (QueryData (Some data)))).1) = data
     ∧ selectedCliente (ui (step w (ProcessosResolved k (QueryData (Some data)))).1)
       = selectedCliente (ui w))
  ∧ (∀ (w : World) (clienteId : list N),
       processos (ui (step w (SelectCliente clienteId)).1) = [])
  ∧ (∀ (cs : list SupaCliente) (ts : list Template) (evs : list Event),
       allAlong answersOwnQuery (initialWorld cs ts) evs = true →
       allAlong picksWhenSettled (initialWorld cs ts) evs = true →
       processosOfSelected (ui (run (initialWorld cs ts) evs))).
Proof.
  split; [|split].
  - intros w k cid data Hk. cbn [step]. by rewrite Hk.
  - intros w clienteId. cbn [step handleSelectCliente fst ui].
    apply commit_frame.
  - intros cs ts evs.
    assert (Hinit : processosOfSelected (ui (initialWorld cs ts))
                    ∧ inflightOfSelected (initialWorld cs ts)).
    { split; intros ? ?%elem_of_nil; done. }
    revert Hinit. generalize (initialWorld cs ts) as w.
    induction evs as [|e evs IH]; intros w Hinv Hans Hpick; [by destruct Hinv|].
    cbn [allAlong] in Hans, Hpick.
    apply andb_true_iff in Hans as [Hans1 Hans], Hpick as [Hpick1 Hpick].
    cbn [run foldl]. apply IH; [|done..].
    by apply step_settled_invariant.
Qed.

Lemma C2_answers_installed_on_arrival_witness :
  processosOfSelected (ui (run (initialWorld [ana; bia] []) settledTrace)).
Proof.
  apply (proj2 (proj2 C2_answers_installed_on_arrival) [ana; bia] [] settledTrace).
  - reflexivity.
  - reflexivity.
Defined.

(** C3, as stated, fails: for a template with an empty body every variable
    has a value, there being none, and the scan finds no marker in the
    preview; the message is not complete. *)
Lemma C3_empty_body_not_complete :
  variables (Some (tpl [])) = []
  ∧ allBound (tpl []) ∅
  ∧ generatedMessage (Some (tpl [])) ∅ = Some []
  ∧ matchAll [] = []
  ∧ isComplete (tpl []) ∅ = Some false.
Proof.
  repeat split; try (vm_compute; reflexivity).
  intros n Hn. by apply elem_of_nil in Hn.
Qed.

(** C3 (amended): for a template whose names are literal keys, the message
    is complete exactly when the preview is not empty and holds the marker
    of none of the template's variables.  A complete message has a
    non-empty value for every variable; a template with an empty body is
    never complete.  When the values have no opening bracket and no dollar
    sign, a template with a non-empty body is complete as soon as every
    variable has a non-empty value, and every variable has one exactly when
    the scan finds no marker in the preview. *)
Theorem C3_complete_iff_bound (t : Template) (vv : gmap (list N) (list N)) :
  forallb literalKey (variables (Some t)) = true →
  ∃ m, generatedMessage (Some t) vv = Some m
    ∧ (isComplete t vv = Some true ↔
         m ≠ [] ∧ ∀ n, n ∈ variables (Some t) → includes m (marker n) = false)
    ∧ (isComplete t vv = Some true → allBound t vv)
    ∧ (t_content t = [] → isComplete t vv = Some false)
    ∧ (cleanValues t vv → t_content t ≠ [] → allBound t vv →
         isComplete t vv = Some true)
    ∧ (cleanValues t vv → (allBound t vv ↔ matchAll m = [])).
Proof.
  intros Hlit.
  destruct (literal_variables_facts t Hlit) as (Hall & Hnl & Hwf).
  destruct (proj2 (generatedMessage_is_Some t vv) Hall) as [m Hm].
  exists m. split; [done|].
  assert (Hdef : isComplete t vv = Some true ↔
            m ≠ [] ∧ ∀ n, n ∈ variables (Some t) → includes m (marker n) = false).
  { unfold isComplete, incomplete. rewrite Hm.
    cbn [fmap option_fmap option_map]. split.
    - intros [= [H1 H2]%negb_true_iff%orb_false_iff].
      apply bool_decide_eq_false in H1. split; [done|]. intros n Hn.
      destruct (includes m (marker n)) eqn:Hinc; [|done].
      assert (H : existsb (λ v, includes m (marker v)) (variables (Some t)) = true).
      2: { exact (eq_trans (eq_sym H) H2). }
      apply existsb_exists. exists n. split; [by apply list_elem_of_In|done].
    - intros [H1 H2]. f_equal. apply negb_true_iff, orb_false_iff. split.
      + by apply bool_decide_eq_false.
      + destruct (existsb _ _) eqn:Hex; [|done].
        apply existsb_exists in Hex as (n & Hn%list_elem_of_In & Hinc).
        by rewrite H2 in Hinc. }
  split; [done|]. split; [|split; [|split]].
  - intros Hc n Hn. destruct (bound_or_unbound vv n) as [?|Hun]; [done|].
    apply Hdef in Hc as [_ Hc]. specialize (Hc n Hn).
    by rewrite (unbound_marker_in_preview t vv m n) in Hc.
  - intros Hbody. destruct (empty_body_preview t vv Hbody) as [_ Hm'].
    unfold isComplete. rewrite Hm'. done.
  - intros Hclean Hbody Hbound.
    destruct (generatedMessage_renderSpec t vv Hlit Hclean) as [Hm' Hwf'].
    rewrite Hm in Hm'. injection Hm' as ->. apply Hdef. split.
    + unfold renderSpec. pose proof (flatten_tokenize (t_content t)) as Hflat.
      destruct (tokenize (t_content t)) as [|tok toks] eqn:Htok; [done|].
      rewrite fmap_cons, flatten_cons.
      assert (Htext : tokenText (bindToken vv tok) ≠ []); [|by destruct (tokenText _)].
      destruct tok as [c|n|v]; cbn; [done| |].
      * by destruct (vv !! n) as [[|c v]|].
      * exfalso. apply (tokenize_no_Val (t_content t) v). rewrite Htok. by left.
    + intros n Hn. destruct (includes _ _) eqn:Hinc; [|done].
      rewrite Forall_forall in Hall, Hnl.
      apply includes_tokens in Hinc; [|by apply literalKey_plain, Hall|by apply Hnl|done].
      by apply (proj1 (allBound_no_Mark t vv)) in Hinc.
  - intros Hclean.
    destruct (generatedMessage_renderSpec t vv Hlit Hclean) as [Hm' Hwf'].
    rewrite Hm in Hm'. injection Hm' as ->. unfold renderSpec.
    by rewrite matchAll_tokens, marks_nil, allBound_no_Mark.
Qed.

Lemma C3_complete_iff_bound_witness :
  ∃ m, generatedMessage (Some modelo) valoresMaria = Some m
    ∧ (isComplete modelo valoresMaria = Some true ↔
         m ≠ [] ∧ ∀ n, n ∈ variables (Some modelo) → includes m (marker n) = false)
    ∧ (isComplete modelo valoresMaria = Some true → allBound modelo valoresMaria)
    ∧ (t_content modelo = [] → isComplete modelo valoresMaria = Some false)
    ∧ (cleanValues modelo valoresMaria → t_content modelo ≠ [] →
         allBound modelo valoresMaria → isComplete modelo valoresMaria = Some true)
    ∧ (cleanValues modelo valoresMaria →
         (allBound modelo valoresMaria ↔ matchAll m = [])).
Proof.
  apply (C3_complete_iff_bound modelo valoresMaria). reflexivity.
Defined.

(** C4 on a value with two dollar signs in a row: the value is read as a
    replacement pattern, the preview shows one dollar sign, and it is not
    the body with the marker replaced by the value.  The scenario of the
    three variables renders as the claim has it. *)
Theorem C4_dollar_value_rewritten :
  variables (Some modeloValor) = [lit "valor"]
  ∧ generatedMessage (Some modeloValor) valoresDolar
    = Some (lit "Total devido: US$ 100.")
  ∧ renderSpec (t_content modeloValor) valoresDolar = lit "Total devido: US$$ 100."
  ∧ generatedMessage (Some modeloValor) valoresDolar
    ≠ Some (renderSpec (t_content modeloValor) valoresDolar)
  ∧ generatedMessage (Some modelo) valoresMaria
    = Some (lit "Ol" ++ [225] ++ lit " Maria, seu processo 123/2024 est" ++ [225]
              ++ lit " Em Andamento.").
Proof. repeat split; vm_compute; congruence. Qed.

(** C5 on a value that names the text before the match: with the value of
    [b] unchanged, a new value for [a] changes what stands in the place of
    the marker of [b] as well. *)
Theorem C5_other_marker_changes :
  variables (Some modeloPar) = [lit "a"; lit "b"]
  ∧ (∀ k, k ≠ lit "a" → valoresPar (lit "x") !! k = valoresPar (lit "y") !! k)
  ∧ generatedMessage (Some modeloPar) (valoresPar (lit "x")) = Some (lit "x-x-")
  ∧ generatedMessage (Some modeloPar) (valoresPar (lit "y")) = Some (lit "y-y-")
  ∧ renderSpec (t_content modeloPar) (valoresPar (lit "x")) = lit "x-$`"
  ∧ renderSpec (t_content modeloPar) (valoresPar (lit "y")) = lit "y-$`".
Proof.
  split; [by vm_compute|]. split.
  { intros k Hk. unfold valoresPar.
    by rewrite !(lookup_insert_ne _ (lit "a")) by congruence. }
  repeat split; vm_compute; reflexivity.
Qed.

(** A send is turned down with an error toast, and nothing else is done,
    when no client is selected, when the completeness guard fires on the
    preview, or when the client's telephone is missing or has no digit; and
    for a template whose names are literal keys the guard fires whenever a
    variable of the template has no value or an empty one. *)
Lemma dispatch_refused_for_literal_names :
  (∀ (sel : option SupaCliente) (vars : list (list N)) (msg : list N),
     sel = None
     ∨ incomplete vars msg = true
     ∨ (∃ c, sel = Some c ∧ digitsOnly (default [] (c_telefone c)) = []) →
     ∃ description, handleSendWhatsapp sel vars msg = [Toast (lit "Erro") description])
  ∧ (∀ (st : State) (m n : list N),
       generatedMessage (selectedTemplate st) (variableValues st) = Some m →
       n ∈ variables (selectedTemplate st) → unbound (variableValues st) n →
       incomplete (variables (selectedTemplate st)) m = true
       ∧ ∃ description, sendWhatsapp st = Some [Toast (lit "Erro") description]).
Proof.
  assert (Hhandler : ∀ sel vars msg,
      sel = None
      ∨ incomplete vars msg = true
      ∨ (∃ c, sel = Some c ∧ digitsOnly (default [] (c_telefone c)) = []) →
      ∃ description, handleSendWhatsapp sel vars msg = [Toast (lit "Erro") description]).
  { intros sel vars msg Hcases. unfold handleSendWhatsapp.
    destruct sel as [c|]; [|by eexists].
    destruct (incomplete vars msg) eqn:Hinc; [by eexists|].
    destruct Hcases as [?|[?|(c' & [= <-] & Hphone)]]; try done.
    rewrite Hphone. cbn. by eexists. }
  split; [done|].
  intros st m n Hm Hn Hun.
  assert (Hinc : incomplete (variables (selectedTemplate st)) m = true).
  { destruct (selectedTemplate st) as [t|] eqn:Ht.
    - by apply (unbound_variable_incomplete t (variableValues st) m n).
    - by apply elem_of_nil in Hn. }
  split; [done|]. unfold sendWhatsapp. rewrite Hm. cbn [fmap option_fmap option_map].
  destruct (Hhandler (selectedCliente st) (variables (selectedTemplate st)) m)
    as [d ->]; [auto|]. by exists d.
Qed.

Lemma dispatch_refused_for_literal_names_example :
  incomplete (variables (selectedTemplate c6_state))
    (lit "Processo 123/2024: [status_processo].") = true
  ∧ ∃ description, sendWhatsapp c6_state = Some [Toast (lit "Erro") description].
Proof.
  apply (proj2 dispatch_refused_for_literal_names c6_state
           (lit "Processo 123/2024: [status_processo].") status_processo).
  - vm_compute. reflexivity.
  - vm_compute. right. left.
  - left. vm_compute. reflexivity.
Qed.

(** C6, at a template with the names [data.fim] and [data_fim] of which
    only the first has a value: the pattern built from the first name
    matches the marker of the second as well, both markers give way to the
    value of the first, the guard finds no marker in the preview, and with
    a client that has a telephone the link is opened although [data_fim]
    has no value.  [generatedMessage] itself gives no preview here: the
    first name is no literal key. *)
Theorem C6_unbound_placeholder_sent :
  variables (selectedTemplate c6_dotted_state) = [lit "data.fim"; lit "data_fim"]
  ∧ unbound (variableValues c6_dotted_state) (lit "data_fim")
  ∧ literalKey (lit "data.fim") = false
  ∧ generatedMessage (selectedTemplate c6_dotted_state)
                     (variableValues c6_dotted_state) = None
  ∧ generatedMessageDotted (selectedTemplate c6_dotted_state)
                           (variableValues c6_dotted_state)
    = Some (lit "Prazo 10/05, audiencia 10/05.")
  ∧ incomplete (variables (selectedTemplate c6_dotted_state))
               (lit "Prazo 10/05, audiencia 10/05.") = false
  ∧ sendWhatsappDotted c6_dotted_state
    = Some [WindowOpen
              (lit "https://wa.me/5511912345678?text=Prazo%2010%2F05%2C%20audiencia%2010%2F05.")
              (lit "_blank")].
Proof.
  split_and!; try (vm_compute; reflexivity).
  left. vm_compute. reflexivity.
Qed.

(** C7, as stated, fails: a value set for a name that the template does not
    have is stored like any other, and the state is not what it was. *)
Lemma C7_foreign_name_is_stored :
  variables (selectedTemplate c7_state) = [nome_cliente]
  ∧ variableValues c7_state !! lit "x" = None
  ∧ variableValues (ui (step c7_world (VariableChange (lit "x") (lit "y"))).1)
      !! lit "x" = Some (lit "y")
  ∧ (step c7_world (VariableChange (lit "x") (lit "y"))).2 = [].
Proof. repeat split; vm_compute; reflexivity. Qed.

(** C7 (amended): a value set for a name that the template does not have is
    stored under that name; the preview and the outcome of a send are what
    they were, and the handler shows and logs nothing. *)
Theorem C7_foreign_name (w : World) (varName value : list N) :
  varName ∉ variables (selectedTemplate (ui w)) →
  let '(w', effs) := step w (VariableChange varName value) in
  variableValues (ui w') !! varName = Some value
  ∧ (∀ k, k ≠ varName → variableValues (ui w') !! k = variableValues (ui w) !! k)
  ∧ selectedTemplate (ui w') = selectedTemplate (ui w)
  ∧ generatedMessage (selectedTemplate (ui w')) (variableValues (ui w'))
    = generatedMessage (selectedTemplate (ui w)) (variableValues (ui w))
  ∧ sendWhatsapp (ui w') = sendWhatsapp (ui w)
  ∧ effs = [].
Proof.
  intros Hnotin. cbn [step handleVariableChange].
  unfold commit. rewrite bool_decide_eq_true_2 by done. cbn [ui].
  assert (Hmsg : generatedMessage (selectedTemplate (ui w))
                   (<[varName:=value]> (variableValues (ui w)))
                 = generatedMessage (selectedTemplate (ui w)) (variableValues (ui w))).
  { apply generatedMessage_ext. intros k Hk.
    apply lookup_insert_ne. by intros ->. }
  repeat split; cbn.
  - apply lookup_insert_eq.
  - intros k Hk. by apply lookup_insert_ne.
  - done.
  - unfold sendWhatsapp. cbn. by rewrite Hmsg.
Qed.

Lemma C7_foreign_name_witness :
  let '(w', effs) := step c7_world (VariableChange (lit "x") (lit "y")) in
  variableValues (ui w') !! lit "x" = Some (lit "y")
  ∧ (∀ k, k ≠ lit "x" → variableValues (ui w') !! k = variableValues (ui c7_world) !! k)
  ∧ selectedTemplate (ui w') = selectedTemplate (ui c7_world)
  ∧ generatedMessage (selectedTemplate (ui w')) (variableValues (ui w'))
    = generatedMessage (selectedTemplate (ui c7_world)) (variableValues (ui c7_world))
  ∧ sendWhatsapp (ui w') = sendWhatsapp (ui c7_world)
  ∧ effs = [].
Proof.
  apply (C7_foreign_name c7_world (lit "x") (lit "y")).
  vm_compute. intros H. apply list_elem_of_singleton in H. discriminate H.
Defined.

(** C8: when a send goes through for a client with a telephone, the
    address in the link that is opened is 55 followed by the digits of the
    telephone, in their order; and it goes through whenever the preview is
    complete, the telephone has a digit and the preview can be encoded. *)
Theorem C8_contact_address (c : SupaCliente) (telefone : list N)
    (vars : list (list N)) (msg : list N) :
  c_telefone c = Some telefone →
  digitsOnly telefone = filter (λ d, 48 ≤ d ≤ 57) telefone
  ∧ (∀ url target,
       WindowOpen url target ∈ handleSendWhatsapp (Some c) vars msg →
       ∃ text, encodeURIComponent msg = Some text
               ∧ url = lit "https://wa.me/" ++ (lit "55" ++ digitsOnly telefone)
                         ++ lit "?text=" ++ text)
  ∧ (∀ text, incomplete vars msg = false → digitsOnly telefone ≠ [] →
       encodeURIComponent msg = Some text →
       handleSendWhatsapp (Some c) vars msg
       = [WindowOpen (lit "https://wa.me/" ++ (lit "55" ++ digitsOnly telefone)
                        ++ lit "?text=" ++ text) (lit "_blank")])
  ∧ lit "55" ++ digitsOnly (lit "(11) 91234-5678") = lit "5511912345678".
Proof.
  intros Htel. split; [|split; [|split]].
  - unfold digitsOnly. clear. induction telefone as [|d tel IH]; [done|].
    cbn [List.filter]. rewrite filter_cons, <- IH. unfold isDigit.
    destruct (decide (48 ≤ d ≤ 57)) as [[H1 H2]|Hd].
    + apply N.leb_le in H1, H2. by rewrite H1, H2.
    + destruct (48 <=? d) eqn:H1, (d <=? 57) eqn:H2; cbn; try done.
      apply N.leb_le in H1, H2. by destruct Hd.
  - intros url target. unfold handleSendWhatsapp. rewrite Htel. cbn [default].
    destruct (incomplete vars msg); [by intros [=]%list_elem_of_singleton|].
    case_bool_decide; [by intros [=]%list_elem_of_singleton|].
    destruct (encodeURIComponent msg) as [text|];
      intros [=]%list_elem_of_singleton. subst. by exists text.
  - intros text Hinc Hd Henc. unfold handleSendWhatsapp.
    rewrite Htel, Hinc, Henc. cbn [default]. by rewrite bool_decide_eq_false_2.
  - vm_compute. reflexivity.
Qed.

Lemma C8_contact_address_witness :
  handleSendWhatsapp (Some ana) [] (lit "Bom dia")
  = [WindowOpen (lit "https://wa.me/5511912345678?text=Bom%20dia") (lit "_blank")].
Proof.
  apply (C8_contact_address ana (lit "(11) 91234-5678") [] (lit "Bom dia") eq_refl).
  - reflexivity.
  - vm_compute. discriminate.
  - vm_compute. reflexivity.
Defined.

(** C9: the variables of a template are the captured texts of its matches,
    each once, in the order in which they are first met; a body without an
    opening bracket, or in which no marker occurs, has none; a name stands
    once however often and wherever its marker is written; markers written
    back to back are both found. The matches are the markers of the body:
    a marker that follows text without an opening bracket is found, with
    what the rest of the body gives after it; every body is a sequence of
    markers, whose names have no closing bracket and no line terminator,
    and code units of text in which an opening bracket that is not the
    start of a marker has no closing bracket after it on its line, and
    however a body is read as such a sequence, the captured names are the
    names of its markers in their order and the variables are the names
    that have a marker in it. *)
Theorem C9_variables_first_occurrence (t : Template) :
  NoDup (variables (Some t))
  ∧ (∀ n, n ∈ variables (Some t) ↔ n ∈ capturedNames (t_content t))
  ∧ (∀ n, n ∈ variables (Some t) → includes (t_content t) (marker n) = true)
  ∧ (∀ i j a b, (i < j)%nat →
       variables (Some t) !! i = Some a → variables (Some t) !! j = Some b →
       ∃ i', capturedNames (t_content t) !! i' = Some a
             ∧ ∀ j', capturedNames (t_content t) !! j' = Some b → (i' < j')%nat)
  ∧ ((LBRACKET ∉ t_content t) → variables (Some t) = [])
  ∧ ((∀ n, includes (t_content t) (marker n) = false) → variables (Some t) = [])
  ∧ (∀ a b r, (RBRACKET ∉ a) → noLineTerminator a →
       (RBRACKET ∉ b) → noLineTerminator b →
       t_content t = marker a ++ marker b ++ r →
       capturedNames (t_content t) = a :: b :: capturedNames r)
  ∧ (∀ pre n r, (LBRACKET ∉ pre) → (RBRACKET ∉ n) → noLineTerminator n →
       t_content t = pre ++ marker n ++ r →
       capturedNames (t_content t) = n :: capturedNames r
       ∧ n ∈ variables (Some t))
  ∧ (∃ toks, reading toks ∧ t_content t = flatten toks)
  ∧ (∀ toks, reading toks → t_content t = flatten toks →
       capturedNames (t_content t) = markNames toks
       ∧ (∀ n, n ∈ variables (Some t) ↔ Mark n ∈ toks)
       ∧ (∀ i j a b, (i < j)%nat →
            variables (Some t) !! i = Some a → variables (Some t) !! j = Some b →
            ∃ i', markNames toks !! i' = Some a
                  ∧ ∀ j', markNames toks !! j' = Some b → (i' < j')%nat)).
Proof.
  assert (Hcaptured : ∀ n, n ∈ variables (Some t) ↔ n ∈ capturedNames (t_content t)).
  { intros n. split.
    - intros Hn%elem_of_variables. unfold capturedNames.
      apply list_elem_of_fmap. exists (marker n). by rewrite slice_1_m1_marker.
    - unfold capturedNames. intros (x & -> & Hx)%list_elem_of_fmap.
      destruct (matchAll_elem _ _ Hx) as (m & _ & _ & -> & _).
      rewrite slice_1_m1_marker. by apply elem_of_variables. }
  assert (Horder : ∀ i j a b, (i < j)%nat →
            variables (Some t) !! i = Some a → variables (Some t) !! j = Some b →
            ∃ i', capturedNames (t_content t) !! i' = Some a
                  ∧ ∀ j', capturedNames (t_content t) !! j' = Some b → (i' < j')%nat).
  { intros i j a b Hij Ha Hb. unfold variables, capturedNames in *.
    rewrite list_lookup_fmap in Ha, Hb.
    destruct (newSet _ !! i) as [x|] eqn:Hx; [|done].
    destruct (newSet _ !! j) as [y|] eqn:Hy; [|done].
    injection Ha as <-. injection Hb as <-.
    destruct (newSet_first_occurrence _ i j x y Hij Hx Hy) as (i' & Hi' & Hall).
    exists i'. split; [by rewrite list_lookup_fmap, Hi'|].
    intros j'. rewrite list_lookup_fmap.
    destruct (matchAll _ !! j') as [y'|] eqn:Hy'; [|done]. intros [= Heq].
    apply Hall. rewrite Hy'. f_equal.
    apply (slice_inj_on_matches (t_content t)); [| |done].
    + by eapply list_elem_of_lookup_2.
    + eapply newSet_subset, list_elem_of_lookup_2. done. }
  split_and!.
  - unfold variables. apply NoDup_fmap_2_strong; [|apply NoDup_newSet].
    intros x y Hx%newSet_subset Hy%newSet_subset.
    by apply (slice_inj_on_matches (t_content t)).
  - exact Hcaptured.
  - intros n Hn. by apply variables_occur in Hn as [? _].
  - exact Horder.
  - intros Hb. unfold variables. by rewrite matchAll_no_bracket.
  - intros Hnone. destruct (variables (Some t)) as [|n ns] eqn:Hvars; [done|].
    assert (Hn : n ∈ variables (Some t)) by (rewrite Hvars; by left).
    apply variables_occur in Hn as [Hn _]. by rewrite Hnone in Hn.
  - intros a b r Ha Hal Hb Hbl ->. unfold capturedNames.
    rewrite !matchAll_marker by done. rewrite !fmap_cons.
    by rewrite !slice_1_m1_marker.
  - intros pre n r Hpre Hn Hnl Hbody.
    assert (Hnames : capturedNames (t_content t) = n :: capturedNames r).
    { rewrite Hbody. unfold capturedNames.
      rewrite matchAll_skip, matchAll_marker by done.
      by rewrite fmap_cons, slice_1_m1_marker. }
    split; [done|]. apply Hcaptured. rewrite Hnames. by left.
  - exists (tokenize (t_content t)).
    split; [apply reading_tokenize|by rewrite flatten_tokenize].
  - intros toks Hwf Hbody.
    assert (Hnames : capturedNames (t_content t) = markNames toks).
    { rewrite Hbody. unfold capturedNames.
      by rewrite matchAll_reading, slice_marks. }
    split_and!.
    + done.
    + intros n. by rewrite Hcaptured, Hnames, elem_of_markNames.
    + rewrite <- Hnames. exact Horder.
Qed.

Lemma C9_variables_first_occurrence_witness :
  NoDup (variables (Some modelo))
  ∧ capturedNames (lit "[a][b] [a]") = [lit "a"; lit "b"; lit "a"]
  ∧ variables (Some (tpl (lit "[a][b] [a]"))) = [lit "a"; lit "b"]
  ∧ capturedNames (lit "Bom dia, [nome_cliente].") = [nome_cliente]
  ∧ variables (Some modelo) = [nome_cliente; numero_processo; status_processo].
Proof.
  split; [apply (C9_variables_first_occurrence modelo)|].
  split; [vm_compute; reflexivity|].
  split; [vm_compute; reflexivity|].
  split; [|vm_compute; reflexivity].
  destruct (C9_variables_first_occurrence modeloT1)
    as (_ & _ & _ & _ & _ & _ & _ & H & _).
  destruct (H (lit "Bom dia, ") nome_cliente (lit ".")) as [Hnames _].
  - refine (bool_decide_unpack _ _). vm_compute. exact I.
  - refine (bool_decide_unpack _ _). vm_compute. exact I.
  - refine (bool_decide_unpack _ _). vm_compute. exact I.
  - reflexivity.
  - exact Hnames.
Defined.

(** C10: with a client selected, whatever the telephone, an empty preview is
    turned down with the fill-in-the-variables message; this is so for a
    template with an empty body, which has no variable, so that every
    variable it has is bound. *)
Theorem C10_empty_message_refused (st : State) (c : SupaCliente) :
  selectedCliente st = Some c →
  (generatedMessage (selectedTemplate st) (variableValues st) = Some [] →
   sendWhatsapp st = Some [Toast (lit "Erro") msgPreencha])
  ∧ (∀ t, selectedTemplate st = Some t → t_content t = [] →
       variables (Some t) = []
       ∧ allBound t (variableValues st)
       ∧ generatedMessage (Some t) (variableValues st) = Some []
       ∧ sendWhatsapp st = Some [Toast (lit "Erro") msgPreencha]).
Proof.
  intros Hc.
  assert (Hempty : generatedMessage (selectedTemplate st) (variableValues st) = Some [] →
                   sendWhatsapp st = Some [Toast (lit "Erro") msgPreencha]).
  { intros Hmsg. unfold sendWhatsapp. by rewrite Hmsg, Hc. }
  split; [done|]. intros t Ht Hbody.
  destruct (empty_body_preview t (variableValues st) Hbody) as [Hvars Hmsg].
  repeat split; try done.
  - intros n Hn. rewrite Hvars in Hn. by apply elem_of_nil in Hn.
  - apply Hempty. by rewrite Ht.
Qed.

Lemma C10_empty_message_refused_witness :
  sendWhatsapp c10_state = Some [Toast (lit "Erro") msgPreencha].
Proof.
  apply (proj2 (C10_empty_message_refused c10_state ana eq_refl) (tpl []));
    reflexivity.
Defined.

(** * Further properties *)

(** Decidable facts about given strings, by evaluation. *)
Ltac by_evaluation := refine (bool_decide_unpack _ _); vm_compute; exact I.

(** ** Rounds that change nothing *)

Lemma replaceFrom_absent (k v before msg : list N) :
  includes msg (marker k) = false → replaceFrom k v before msg = msg.
Proof.
  revert before. induction msg as [|c msg IH]; intros before; [by simp replaceFrom|].
  rewrite includes_cons. intros [Hp Hinc]%orb_false_iff.
  by rewrite replaceFrom_cons, Hp, IH.
Qed.

Lemma valueOrMarker_fold_ext (vv vv' : gmap (list N) (list N))
    (keys : list (list N)) (acc : option (list N)) :
  (∀ k, k ∈ keys → valueOrMarker vv k = valueOrMarker vv' k) →
  foldl (substituteKey vv) acc keys = foldl (substituteKey vv') acc keys.
Proof.
  revert acc. induction keys as [|k keys IH]; intros acc Hagree; [done|].
  cbn [foldl]. rewrite IH by (intros; apply Hagree; by right).
  f_equal. unfold substituteKey. by rewrite Hagree by by left.
Qed.

Lemma foldl_unbound (vv : gmap (list N) (list N)) (keys : list (list N)) (msg : list N) :
  Forall (λ k, literalKey k = true) keys → (∀ k, k ∈ keys → unbound vv k) →
  foldl (substituteKey vv) (Some msg) keys = Some msg.
Proof.
  induction keys as [|k keys IH]; intros Hlit Hun; [done|].
  apply Forall_cons in Hlit as [Hk Hlit]. cbn [foldl].
  unfold substituteKey at 2. cbn. rewrite Hk.
  rewrite valueOrMarker_unbound by (apply Hun; by left).
  unfold replaceMarker. rewrite replaceFrom_id by by apply literalKey_plain.
  apply IH; [done|]. intros; apply Hun; by right.
Qed.

(** X1: as long as none of the variables of a template has a value, the
    preview is the body of the template as it is written. *)
Theorem X1_preview_verbatim_when_unbound (t : Template) (vv : gmap (list N) (list N)) :
  forallb literalKey (variables (Some t)) = true →
  (∀ n, n ∈ variables (Some t) → unbound vv n) →
  generatedMessage (Some t) vv = Some (t_content t).
Proof.
  intros Hlit Hun. destruct (literal_variables_facts t Hlit) as (Hall & _ & _).
  by apply foldl_unbound.
Qed.

Lemma X1_preview_verbatim_when_unbound_witness :
  generatedMessage (Some modelo) ∅ = Some (t_content modelo).
Proof.
  apply (X1_preview_verbatim_when_unbound modelo ∅).
  - reflexivity.
  - intros n _. left. apply lookup_empty.
Defined.

(** X2: for a template whose names are literal keys, a value that is the
    empty string counts as no value: the preview and the completeness
    verdict exist and are those of the bindings without it. *)
Theorem X2_empty_value_is_no_value (t : Template) (vv : gmap (list N) (list N))
    (n : list N) :
  forallb literalKey (variables (Some t)) = true →
  ∃ m b,
    generatedMessage (Some t) (<[n:=[]]> vv) = Some m
    ∧ generatedMessage (Some t) (delete n vv) = Some m
    ∧ isComplete t (<[n:=[]]> vv) = Some b
    ∧ isComplete t (delete n vv) = Some b.
Proof.
  intros Hlit. destruct (literal_variables_facts t Hlit) as (Hall & _ & _).
  assert (Hmsg : generatedMessage (Some t) (<[n:=[]]> vv)
                 = generatedMessage (Some t) (delete n vv)).
  { unfold generatedMessage. apply valueOrMarker_fold_ext. intros k _.
    unfold valueOrMarker. destruct (decide (k = n)) as [->|Hk].
    - by rewrite lookup_insert_eq, lookup_delete_eq.
    - by rewrite lookup_insert_ne, lookup_delete_ne. }
  destruct (proj2 (generatedMessage_is_Some t (delete n vv)) Hall) as [m Hm].
  exists m, (negb (incomplete (variables (Some t)) m)).
  unfold isComplete. rewrite Hmsg, Hm. by repeat split.
Qed.

Lemma X2_empty_value_is_no_value_witness :
  ∃ m b,
    generatedMessage (Some modelo) (<[status_processo:=[]]> valoresMaria) = Some m
    ∧ generatedMessage (Some modelo) (delete status_processo valoresMaria) = Some m
    ∧ isComplete modelo (<[status_processo:=[]]> valoresMaria) = Some b
    ∧ isComplete modelo (delete status_processo valoresMaria) = Some b.
Proof.
  apply (X2_empty_value_is_no_value modelo valoresMaria status_processo).
  reflexivity.
Defined.

(** X3: a round for a key whose marker does not occur in the running message
    leaves the message as it is, whatever the value. *)
Theorem X3_round_without_marker (vv : gmap (list N) (list N)) (key msg : list N) :
  literalKey key = true → includes msg (marker key) = false →
  substituteKey vv (Some msg) key = Some msg.
Proof.
  intros Hlit Hinc. unfold substituteKey. cbn. rewrite Hlit.
  unfold replaceMarker. by rewrite replaceFrom_absent.
Qed.

Lemma X3_round_without_marker_witness :
  substituteKey valoresMaria (Some (lit "Bom dia, [outro].")) nome_cliente
  = Some (lit "Bom dia, [outro].").
Proof.
  apply (X3_round_without_marker valoresMaria nome_cliente (lit "Bom dia, [outro]."));
    reflexivity.
Defined.

(** ** The preview as a substitution *)

(** X4: when the names of a template are literal keys and the values of its
    variables have no opening bracket and no dollar sign, the preview is
    the body with every marker that has a non-empty value replaced by that
    value, all markers at once, and everything else kept. *)
Theorem X4_preview_is_substitution (t : Template) (vv : gmap (list N) (list N)) :
  forallb literalKey (variables (Some t)) = true → cleanValues t vv →
  generatedMessage (Some t) vv = Some (renderSpec (t_content t) vv).
Proof. intros Hlit Hclean. by apply generatedMessage_renderSpec. Qed.

Lemma valoresMaria_clean : cleanValues modelo valoresMaria.
Proof.
  intros n v _. unfold valoresMaria.
  rewrite !lookup_insert. repeat case_decide; try by intros [=].
  all: intros [= <-]; split; by_evaluation.
Qed.

Lemma valoresMaria_bound : allBound modelo valoresMaria.
Proof.
  intros n Hn.
  assert (Hvars : variables (Some modelo)
                  = [nome_cliente; numero_processo; status_processo])
    by (by vm_compute).
  rewrite Hvars in Hn.
  apply elem_of_cons in Hn as [->|Hn]; [by exists (lit "Maria")|].
  apply elem_of_cons in Hn as [->|Hn]; [by exists (lit "123/2024")|].
  apply list_elem_of_singleton in Hn as ->. by exists (lit "Em Andamento").
Qed.

Lemma X4_preview_is_substitution_witness :
  generatedMessage (Some modelo) valoresMaria
  = Some (renderSpec (t_content modelo) valoresMaria).
Proof.
  apply (X4_preview_is_substitution modelo valoresMaria).
  - reflexivity.
  - exact valoresMaria_clean.
Defined.

(** X5: under the same conditions before and after, giving one name a new
    value changes the preview at the markers of that name only: both
    previews are the tokens of the body, bound alike except for those
    markers. *)
Theorem X5_new_value_changes_its_markers (t : Template)
    (vv : gmap (list N) (list N)) (n v : list N) :
  forallb literalKey (variables (Some t)) = true →
  cleanValues t vv → cleanValue v →
  generatedMessage (Some t) vv
  = Some (flatten (bindToken vv <$> tokenize (t_content t)))
  ∧ generatedMessage (Some t) (<[n:=v]> vv)
    = Some (flatten (bindToken (<[n:=v]> vv) <$> tokenize (t_content t)))
  ∧ (∀ tok, tok ≠ Mark n → bindToken (<[n:=v]> vv) tok = bindToken vv tok)
  ∧ flatten (tokenize (t_content t)) = t_content t.
Proof.
  intros Hlit Hclean Hv.
  assert (Hclean' : cleanValues t (<[n:=v]> vv)).
  { intros k w Hk. rewrite lookup_insert. case_decide.
    - by intros [= <-].
    - by apply Hclean. }
  destruct (preview_changes_at_marker_only t vv n v Hlit Hclean Hclean')
    as (H1 & H2 & H3).
  repeat split; try done. apply flatten_tokenize.
Qed.

Lemma X5_new_value_changes_its_markers_witness :
  generatedMessage (Some modelo) valoresMaria
  = Some (flatten (bindToken valoresMaria <$> tokenize (t_content modelo)))
  ∧ generatedMessage (Some modelo) (<[nome_cliente:=lit "Ana"]> valoresMaria)
    = Some (flatten (bindToken (<[nome_cliente:=lit "Ana"]> valoresMaria)
                       <$> tokenize (t_content modelo)))
  ∧ (∀ tok, tok ≠ Mark nome_cliente →
       bindToken (<[nome_cliente:=lit "Ana"]> valoresMaria) tok
       = bindToken valoresMaria tok)
  ∧ flatten (tokenize (t_content modelo)) = t_content modelo.
Proof.
  apply (X5_new_value_changes_its_markers modelo valoresMaria nome_cliente (lit "Ana")).
  - reflexivity.
  - exact valoresMaria_clean.
  - split; by_evaluation.
Defined.

(** ** What the scan can find *)

Lemma matchAll_single (n : list N) :
  RBRACKET ∉ n → noLineTerminator n → matchAll (marker n) = [marker n].
Proof.
  intros Hn Hnl. rewrite <- (right_id_L [] (++) (marker n)) at 1.
  rewrite matchAll_marker by done. by simp matchAll.
Qed.

(** X6: the strings that can be the name of a placeholder are exactly those
    without a closing bracket and without a line terminator; such a string,
    put between brackets, is the one variable of that template.  A name may
    thus be empty and may hold spaces, opening brackets and dollar signs. *)
Theorem X6_possible_names (n : list N) :
  (∃ t, n ∈ variables (Some t)) ↔ (RBRACKET ∉ n) ∧ noLineTerminator n.
Proof.
  split.
  - intros [t Hn]. by apply variables_occur in Hn as (_ & ? & ?).
  - intros [Hn Hnl]. exists (tpl (marker n)). apply elem_of_variables.
    unfold tpl. cbn [t_content]. rewrite matchAll_single by done. by left.
Qed.

Lemma length_newSet (l : list (list N)) : (length (newSet l) ≤ length l)%nat.
Proof.
  induction l as [|x l IH] using rev_ind; [done|].
  rewrite newSet_snoc, length_app. unfold setAdd. case_decide.
  - lia.
  - rewrite length_app. cbn. lia.
Qed.

Lemma matchAll_total_length (s : list N) :
  (length (concat (matchAll s)) ≤ length s)%nat.
Proof.
  induction s as [|c s n Hm Hs Hn Hnl IH|c s Hm IH] using scan_ind.
  - by simp matchAll.
  - rewrite matchAll_cons, Hm. cbn [concat]. rewrite length_app.
    apply (f_equal length) in Hs. rewrite length_app in Hs. lia.
  - rewrite matchAll_cons, Hm. cbn. lia.
Qed.

Lemma concat_length_ge (l : list (list N)) :
  Forall (λ x, 2 ≤ length x)%nat l → (2 * length l ≤ length (concat l))%nat.
Proof.
  induction 1 as [|x l Hx _ IH]; [done|]. cbn. rewrite length_app. lia.
Qed.

(** X7: the matches do not overlap, so that together they are no longer
    than the body; a template has at most half as many variables as its body
    has code units. *)
Theorem X7_matches_fit_in_body (t : Template) :
  (length (concat (matchAll (t_content t))) ≤ length (t_content t))%nat
  ∧ (length (variables (Some t)) ≤ length (capturedNames (t_content t)))%nat
  ∧ (2 * length (variables (Some t)) ≤ length (t_content t))%nat.
Proof.
  pose proof (matchAll_total_length (t_content t)) as Htot.
  assert (Hvars : (length (variables (Some t)) ≤ length (matchAll (t_content t)))%nat).
  { unfold variables. rewrite length_fmap. apply length_newSet. }
  split; [done|]. split.
  - unfold capturedNames. by rewrite length_fmap.
  - assert (H2 : (2 * length (matchAll (t_content t))
                  ≤ length (concat (matchAll (t_content t))))%nat).
    { apply concat_length_ge, Forall_forall. intros x Hx.
      apply matchAll_elem in Hx as (n & _ & _ & -> & _).
      rewrite length_marker. lia. }
    lia.
Qed.

(** ** The outcome of a send *)

(** X8: a send has exactly one outcome.  It opens a link exactly when a
    client is selected, the completeness guard does not fire, the telephone
    has a digit and the preview can be encoded.  Otherwise the first guard
    that fires decides the message: no client, then an incomplete preview,
    then a telephone without digits. *)
Theorem X8_send_outcome (sel : option SupaCliente) (vars : list (list N)) (msg : list N) :
  (∃ e, handleSendWhatsapp sel vars msg = [e])
  ∧ ((∃ url target, WindowOpen url target ∈ handleSendWhatsapp sel vars msg)
     ↔ ∃ c text, sel = Some c ∧ incomplete vars msg = false
                 ∧ digitsOnly (default [] (c_telefone c)) ≠ []
                 ∧ encodeURIComponent msg = Some text)
  ∧ (sel = None → handleSendWhatsapp sel vars msg = [Toast (lit "Erro") msgSelecione])
  ∧ (is_Some sel → incomplete vars msg = true →
     handleSendWhatsapp sel vars msg = [Toast (lit "Erro") msgPreencha])
  ∧ (∀ c, sel = Some c → incomplete vars msg = false →
     digitsOnly (default [] (c_telefone c)) = [] →
     handleSendWhatsapp sel vars msg = [Toast (lit "Erro") msgSemTelefone]).
Proof.
  unfold handleSendWhatsapp. split; [|split; [|split; [|split]]].
  - destruct sel as [c|]; [|by eexists].
    destruct (incomplete vars msg); [by eexists|].
    case_bool_decide; [by eexists|].
    destruct (encodeURIComponent msg); by eexists.
  - split.
    + intros (url & target & Hin). destruct sel as [c|].
      2: { by apply list_elem_of_singleton in Hin. }
      destruct (incomplete vars msg) eqn:Hinc.
      { by apply list_elem_of_singleton in Hin. }
      case_bool_decide as Hphone.
      { by apply list_elem_of_singleton in Hin. }
      destruct (encodeURIComponent msg) as [text|] eqn:Henc.
      * by exists c, text.
      * by apply list_elem_of_singleton in Hin.
    + intros (c & text & -> & -> & Hphone & ->).
      rewrite bool_decide_eq_false_2 by done. do 2 eexists. by left.
  - by intros ->.
  - intros [c ->] Hinc. by rewrite Hinc.
  - intros c -> Hinc Hphone. by rewrite Hinc, Hphone.
Qed.

Lemma hexDigit_unreserved (n : N) : n < 16 → isUnreserved (hexDigit n) = true.
Proof.
  intros Hn. destruct n as [|p]; [reflexivity|].
  do 4 (destruct p as [p|p|]; try reflexivity); lia.
Qed.

Lemma percent_safe (b : N) : b < 256 → Forall urlSafe (percent b).
Proof.
  intros Hb. unfold percent. rewrite !Forall_cons. split_and!.
  - by right.
  - left. apply hexDigit_unreserved. by apply N.Div0.div_lt_upper_bound.
  - left. apply hexDigit_unreserved. by apply N.mod_lt.
  - constructor.
Qed.

Lemma utf8_bytes (cp : N) : cp < 1114112 → Forall (λ b, b < 256) (utf8 cp).
Proof.
  intros Hcp. unfold utf8.
  assert (Hmod : ∀ x, 128 + x mod 64 < 256).
  { intros x. pose proof (N.mod_lt x 64 ltac:(done)). lia. }
  destruct (cp <? 128) eqn:H1.
  { apply N.ltb_lt in H1. rewrite !Forall_cons. split_and!; [lia|constructor]. }
  destruct (cp <? 2048) eqn:H2.
  { apply N.ltb_lt in H2. rewrite !Forall_cons.
    assert (cp / 64 < 32) by (by apply N.Div0.div_lt_upper_bound).
    split_and!; [lia|apply Hmod|constructor]. }
  destruct (cp <? 65536) eqn:H3.
  { apply N.ltb_lt in H3. rewrite !Forall_cons.
    assert (cp / 4096 < 16) by (by apply N.Div0.div_lt_upper_bound).
    split_and!; [lia|apply Hmod..|constructor]. }
  rewrite !Forall_cons.
  assert (cp / 262144 < 5) by (apply N.Div0.div_lt_upper_bound; lia).
  split_and!; [lia|apply Hmod..|constructor].
Qed.

Lemma percent_bytes_safe (bs : list N) :
  Forall (λ b, b < 256) bs → Forall urlSafe (bs ≫= percent).
Proof.
  induction 1 as [|b bs Hb _ IH]; [constructor|].
  rewrite bind_cons. apply Forall_app. split; [by apply percent_safe|done].
Qed.

Lemma surrogate_pair_code_point (c d : N) :
  isHighSurrogate c = true → isLowSurrogate d = true →
  65536 + (c - 55296) * 1024 + (d - 56320) < 1114112.
Proof.
  unfold isHighSurrogate, isLowSurrogate.
  intros [H1 H2]%andb_true_iff [H3 H4]%andb_true_iff.
  apply N.leb_le in H1, H2, H3, H4. lia.
Qed.

(** The encoded text holds unreserved code units and percent signs only. *)
Lemma encodeURIComponent_safe (s t : list N) :
  codeUnits s → encodeURIComponent s = Some t → Forall urlSafe t.
Proof.
  revert t. induction s as [s IH] using length_ind. intros t Hs.
  destruct s as [|c s]; cbn [encodeURIComponent].
  { intros [= <-]. constructor. }
  apply Forall_cons in Hs as [Hc Hs].
  destruct (isUnreserved c) eqn:Hun.
  { destruct (encodeURIComponent s) as [t'|] eqn:Ht'; [|done]. intros [= <-].
    constructor; [by left|]. apply (IH s); [cbn; lia|done..]. }
  destruct (isLowSurrogate c); [done|].
  destruct (isHighSurrogate c) eqn:Hhi.
  - destruct s as [|d s]; [done|]. apply Forall_cons in Hs as [Hd Hs].
    destruct (isLowSurrogate d) eqn:Hlo; [|done].
    destruct (encodeURIComponent s) as [t'|] eqn:Ht'; [|done]. intros [= <-].
    apply Forall_app. split.
    + by apply percent_bytes_safe, utf8_bytes, surrogate_pair_code_point.
    + apply (IH s); [cbn; lia|done..].
  - destruct (encodeURIComponent s) as [t'|] eqn:Ht'; [|done]. intros [= <-].
    apply Forall_app. split.
    + apply percent_bytes_safe, utf8_bytes. lia.
    + apply (IH s); [cbn; lia|done..].
Qed.

Lemma digitsOnly_digits (telefone : list N) :
  Forall (λ d, 48 ≤ d ≤ 57) (digitsOnly telefone).
Proof.
  unfold digitsOnly. apply Forall_forall. intros d Hd%list_elem_of_In.
  apply filter_In in Hd as [_ Hd]. unfold isDigit in Hd.
  apply andb_true_iff in Hd as [H1 H2]. by apply N.leb_le in H1, H2.
Qed.

(** X9: the link that a send opens is [https://wa.me/], a number made of
    digits only, [?text=] and a text of unreserved code units and percent
    signs: nothing in the telephone or in the message can end the number,
    add a parameter or start a fragment. *)
Theorem X9_link_is_well_formed (c : SupaCliente) (vars : list (list N))
    (msg url target : list N) :
  codeUnits msg →
  WindowOpen url target ∈ handleSendWhatsapp (Some c) vars msg →
  ∃ number text,
    url = lit "https://wa.me/" ++ number ++ lit "?text=" ++ text
    ∧ number ≠ []
    ∧ Forall (λ d, 48 ≤ d ≤ 57) number
    ∧ Forall urlSafe text
    ∧ target = lit "_blank".
Proof.
  intros Hmsg Hin. unfold handleSendWhatsapp in Hin.
  destruct (incomplete vars msg); [by apply list_elem_of_singleton in Hin|].
  case_bool_decide as Hphone; [by apply list_elem_of_singleton in Hin|].
  destruct (encodeURIComponent msg) as [text|] eqn:Henc;
    apply list_elem_of_singleton in Hin; [|done].
  injection Hin as -> ->.
  exists (lit "55" ++ digitsOnly (default [] (c_telefone c))), text.
  repeat split; try done.
  - apply Forall_app. split; [|apply digitsOnly_digits]. by_evaluation.
  - by apply (encodeURIComponent_safe msg).
Qed.

Lemma X9_link_is_well_formed_witness :
  ∃ number text,
    lit "https://wa.me/5511912345678?text=Bom%20dia"
    = lit "https://wa.me/" ++ number ++ lit "?text=" ++ text
    ∧ number ≠ []
    ∧ Forall (λ d, 48 ≤ d ≤ 57) number
    ∧ Forall urlSafe text
    ∧ lit "_blank" = lit "_blank".
Proof.
  apply (X9_link_is_well_formed ana [] (lit "Bom dia")).
  - by_evaluation.
  - vm_compute. left.
Defined.

(** X10: a message without surrogate code units can always be encoded, so
    that a send for it never ends in an uncaught error. *)
Theorem X10_no_surrogate_no_error (sel : option SupaCliente) (vars : list (list N))
    (msg : list N) :
  noSurrogate msg →
  is_Some (encodeURIComponent msg)
  ∧ ∀ e, Uncaught e ∉ handleSendWhatsapp sel vars msg.
Proof.
  intros Hmsg.
  assert (Henc : is_Some (encodeURIComponent msg)).
  { induction Hmsg as [|c s [Hhi Hlo] _ IH]; [by eexists|].
    destruct IH as [t Ht]. cbn [encodeURIComponent]. rewrite Hlo, Hhi, Ht.
    destruct (isUnreserved c); by eexists. }
  split; [done|]. intros e. unfold handleSendWhatsapp.
  destruct Henc as [t ->]. destruct sel as [c|].
  2: { by intros [=]%list_elem_of_singleton. }
  destruct (incomplete vars msg); [by intros [=]%list_elem_of_singleton|].
  case_bool_decide; by intros [=]%list_elem_of_singleton.
Qed.

Lemma X10_no_surrogate_no_error_witness :
  is_Some (encodeURIComponent (lit "Bom dia"))
  ∧ ∀ e, Uncaught e ∉ handleSendWhatsapp (Some ana) [] (lit "Bom dia").
Proof.
  apply (X10_no_surrogate_no_error (Some ana) [] (lit "Bom dia")). by_evaluation.
Defined.

Lemma complete_when_bound (t : Template) (vv : gmap (list N) (list N)) :
  forallb literalKey (variables (Some t)) = true → cleanValues t vv →
  t_content t ≠ [] → allBound t vv →
  incomplete (variables (Some t)) (renderSpec (t_content t) vv) = false.
Proof.
  intros Hlit Hclean Hbody Hbound.
  destruct (literal_variables_facts t Hlit) as (Hall & Hnl & _).
  destruct (generatedMessage_renderSpec t vv Hlit Hclean) as [_ Hwf].
  unfold incomplete. apply orb_false_iff. split.
  - apply bool_decide_eq_false. unfold renderSpec.
    pose proof (flatten_tokenize (t_content t)) as Hflat.
    destruct (tokenize (t_content t)) as [|tok toks] eqn:Htok; [done|].
    rewrite fmap_cons, flatten_cons.
    assert (Htext : tokenText (bindToken vv tok) ≠ []); [|by destruct (tokenText _)].
    destruct tok as [c|n|v]; cbn; [done| |].
    + by destruct (vv !! n) as [[|c v]|].
    + exfalso. apply (tokenize_no_Val (t_content t) v). rewrite Htok. by left.
  - destruct (existsb _ _) eqn:Hex; [|done].
    apply existsb_exists in Hex as (n & Hn%list_elem_of_In & Hinc).
    rewrite Forall_forall in Hall, Hnl.
    apply includes_tokens in Hinc; [|by apply literalKey_plain, Hall|by apply Hnl|done].
    by apply (proj1 (allBound_no_Mark t vv)) in Hinc.
Qed.

(** X11: with a client whose telephone has a digit, a template with a
    non-empty body whose names are literal keys, and a non-empty value
    without opening bracket or dollar sign for each of its variables, a send
    opens the link to 55 and the digits of the telephone, with the encoded
    body in which every marker has given way to its value. *)
Theorem X11_send_goes_through (st : State) (c : SupaCliente) (t : Template)
    (text : list N) :
  selectedCliente st = Some c → selectedTemplate st = Some t →
  t_content t ≠ [] →
  forallb literalKey (variables (Some t)) = true →
  cleanValues t (variableValues st) → allBound t (variableValues st) →
  digitsOnly (default [] (c_telefone c)) ≠ [] →
  encodeURIComponent (renderSpec (t_content t) (variableValues st)) = Some text →
  sendWhatsapp st
  = Some [WindowOpen (lit "https://wa.me/55" ++ digitsOnly (default [] (c_telefone c))
                        ++ lit "?text=" ++ text) (lit "_blank")].
Proof.
  intros Hc Ht Hbody Hlit Hclean Hbound Hphone Henc.
  unfold sendWhatsapp. rewrite Hc, Ht.
  rewrite (proj1 (generatedMessage_renderSpec t _ Hlit Hclean)).
  cbn [fmap option_fmap option_map]. unfold handleSendWhatsapp.
  rewrite complete_when_bound by done.
  by rewrite bool_decide_eq_false_2, Henc by done.
Qed.

Lemma X11_send_goes_through_witness :
  sendWhatsapp x11_state
  = Some [WindowOpen
            (lit "https://wa.me/55" ++ digitsOnly (default [] (c_telefone ana))
               ++ lit "?text="
               ++ lit "Ol%C3%A1%20Maria%2C%20seu%20processo%20123%2F2024%20est%C3%A1%20Em%20Andamento.")
            (lit "_blank")].
Proof.
  apply (X11_send_goes_through x11_state ana modelo).
  - reflexivity.
  - reflexivity.
  - by vm_compute.
  - reflexivity.
  - exact valoresMaria_clean.
  - exact valoresMaria_bound.
  - by vm_compute.
  - vm_compute. reflexivity.
Defined.

(** ** Selecting a template, selecting a client *)

Lemma find_none_id (cs : list SupaCliente) (clienteId : list N) :
  (∀ c, c ∈ cs → c_id c ≠ clienteId) →
  find (λ c, bool_decide (c_id c = clienteId)) cs = None.
Proof.
  induction cs as [|c cs IH]; intros Hnone; [done|]. cbn.
  rewrite bool_decide_eq_false_2 by (apply Hnone; by left).
  apply IH. intros; apply Hnone; by right.
Qed.



(** X13: picking another client, one of those loaded, makes it the selected
    one, empties the rows on offer, sends one query for its rows and, when
    the template has the variable [nome_cliente], binds it to the name of
    the client; otherwise that binding is left as it was. *)
Theorem X13_client_change (w : World) (clienteId : list N) (c : SupaCliente) :
  find (λ c, bool_decide (c_id c = clienteId)) (clientes (ui w)) = Some c →
  selectedCliente (ui w) ≠ Some c →
  let '(w', effs) := step w (SelectCliente clienteId) in
  selectedCliente (ui w') = Some c
  ∧ c_id c = clienteId
  ∧ c ∈ clientes (ui w)
  ∧ processos (ui w') = []
  ∧ selectedTemplate (ui w') = selectedTemplate (ui w)
  ∧ variableValues (ui w') !! nome_cliente
    = (if bool_decide (nome_cliente ∈ variables (selectedTemplate (ui w)))
       then Some (c_nome c) else variableValues (ui w) !! nome_cliente)
  ∧ effs = [SelectProcessos clienteId]
  ∧ inflight w' = inflight w ++ [clienteId].
Proof.
  intros Hfind Hnew. cbn [step]. unfold handleSelectCliente. rewrite Hfind.
  unfold commit. cbn [selectedCliente selectedTemplate].
  rewrite bool_decide_eq_false_2 by (intros [? _]; congruence).
  unfold nomeClienteEffect. cbn [selectedCliente selectedTemplate ui inflight].
  apply find_some in Hfind as [Hin Hid]. apply bool_decide_eq_true in Hid.
  apply list_elem_of_In in Hin. subst clienteId.
  case_bool_decide; cbn; split_and!; try done.
  - apply lookup_insert_eq.
  - by rewrite !lookup_delete_ne.
Qed.

Lemma X13_client_change_witness :
  let '(w', effs) := step c1_world (SelectCliente (lit "B")) in
  selectedCliente (ui w') = Some bia
  ∧ c_id bia = lit "B"
  ∧ bia ∈ clientes (ui c1_world)
  ∧ processos (ui w') = []
  ∧ selectedTemplate (ui w') = selectedTemplate (ui c1_world)
  ∧ variableValues (ui w') !! nome_cliente
    = (if bool_decide (nome_cliente ∈ variables (selectedTemplate (ui c1_world)))
       then Some (c_nome bia) else variableValues (ui c1_world) !! nome_cliente)
  ∧ effs = [SelectProcessos (lit "B")]
  ∧ inflight w' = inflight c1_world ++ [lit "B"].
Proof.
  apply (X13_client_change c1_world (lit "B") bia).
  - reflexivity.
  - vm_compute. discriminate.
Defined.

(** X14: picking an id that no loaded client has leaves no client selected:
    the rows on offer are emptied, no query is sent, both selects that wait
    for a client are disabled, and the bindings other than those of
    [numero_processo] and [status_processo] stay, the name of the former
    client under [nome_cliente] among them. *)
Theorem X14_unknown_client (w : World) (clienteId : list N) :
  (∀ c, c ∈ clientes (ui w) → c_id c ≠ clienteId) →
  let '(w', effs) := step w (SelectCliente clienteId) in
  selectedCliente (ui w') = None
  ∧ processos (ui w') = []
  ∧ effs = []
  ∧ inflight w' = inflight w
  ∧ templateSelectDisabled (ui w') = true
  ∧ processoSelectDisabled (ui w') = true
  ∧ variableValues (ui w') !! numero_processo = None
  ∧ variableValues (ui w') !! status_processo = None
  ∧ ∀ k, k ≠ numero_processo → k ≠ status_processo →
         variableValues (ui w') !! k = variableValues (ui w) !! k.
Proof.
  intros Hnone%find_none_id. cbn [step]. unfold handleSelectCliente. rewrite Hnone.
  assert (Hcommit : ∀ st st', selectedCliente st' = None → commit st st' = st').
  { intros st st' Hsel. unfold commit, nomeClienteEffect. rewrite Hsel.
    by case_bool_decide. }
  rewrite Hcommit by done. cbn. rewrite (right_id_L [] (++)). split_and!; try done.
  - rewrite lookup_delete_ne by done. apply lookup_delete_eq.
  - apply lookup_delete_eq.
  - intros k H1 H2. by rewrite !lookup_delete_ne.
Qed.

Lemma X14_unknown_client_witness :
  let '(w', effs) := step c1_world (SelectCliente (lit "Z")) in
  selectedCliente (ui w') = None
  ∧ processos (ui w') = []
  ∧ effs = []
  ∧ inflight w' = inflight c1_world
  ∧ templateSelectDisabled (ui w') = true
  ∧ processoSelectDisabled (ui w') = true
  ∧ variableValues (ui w') !! numero_processo = None
  ∧ variableValues (ui w') !! status_processo = None
  ∧ ∀ k, k ≠ numero_processo → k ≠ status_processo →
         variableValues (ui w') !! k = variableValues (ui c1_world) !! k.
Proof.
  apply (X14_unknown_client c1_world (lit "Z")).
  intros c Hc. cbn in Hc.
  apply elem_of_cons in Hc as [->|Hc]; [vm_compute; discriminate|].
  apply list_elem_of_singleton in Hc as ->. vm_compute. discriminate.
Defined.

(** ** Along a run *)

Lemma commit_lists (before after : State) :
  clientes (commit before after) = clientes after
  ∧ templates (commit before after) = templates after
  ∧ selectedCliente (commit before after) = selectedCliente after
  ∧ selectedTemplate (commit before after) = selectedTemplate after
  ∧ processos (commit before after) = processos after.
Proof.
  unfold commit, nomeClienteEffect.
  by repeat (case_bool_decide || case_match).
Qed.

Lemma step_refersToLoaded (cs : list SupaCliente) (ts : list Template)
    (w : World) (e : Event) :
  refersToLoaded cs ts w → refersToLoaded cs ts (step w e).1.
Proof.
  intros (Hcs & Hts & Hsel & Htpl & Hfl). unfold refersToLoaded.
  destruct e as [clienteId|templateId|varName value|k r]; cbn [step].
  - destruct (commit_lists (ui w) (handleSelectCliente clienteId (ui w)).1)
      as (H1 & H2 & H3 & H4 & _).
    cbn [handleSelectCliente fst ui inflight] in *. rewrite H1, H2, H3, H4.
    cbn [clientes templates selectedCliente selectedTemplate].
    assert (Hfound : ∀ c, find (λ c, bool_decide (c_id c = clienteId)) (clientes (ui w))
                          = Some c → c ∈ cs ∧ c_id c = clienteId).
    { intros c [Hin Hid]%find_some. apply bool_decide_eq_true in Hid.
      apply list_elem_of_In in Hin. by rewrite <- Hcs. }
    split_and!; try done.
    + intros c Hc. by apply Hfound.
    + intros cid [Hin|Hin]%elem_of_app; [by apply Hfl|].
      destruct (find _ _) as [c|]; cbn in Hin.
      * apply list_elem_of_singleton in Hin as ->. exists c.
        destruct (Hfound c eq_refl) as [? ?]. done.
      * by apply elem_of_nil in Hin.
  - destruct (commit_lists (ui w) (handleSelectTemplate templateId (ui w)))
      as (H1 & H2 & H3 & H4 & _).
    cbn [handleSelectTemplate fst ui inflight] in *. rewrite H1, H2, H3, H4.
    cbn [clientes templates selectedCliente selectedTemplate].
    split_and!; try done.
    intros t [Hin _]%find_some. apply list_elem_of_In in Hin. by rewrite <- Hts.
  - destruct (commit_lists (ui w) (handleVariableChange varName value (ui w)).1)
      as (H1 & H2 & H3 & H4 & _).
    cbn [handleVariableChange fst ui inflight] in *. by rewrite H1, H2, H3, H4.
  - destruct (inflight w !! k) as [cid|] eqn:Hk; [|done].
    assert (Hdel : ∀ cid', cid' ∈ delete k (inflight w) → cid' ∈ inflight w).
    { intros cid' Hin. eapply elem_of_sublist; [done|apply sublist_delete]. }
    destruct r as [|data]; cbn; split_and!; try done.
    + intros cid' ?%Hdel. by apply Hfl.
    + intros cid' ?%Hdel. by apply Hfl.
Qed.

(** X15: through any sequence of selections, edits and answers, the lists
    of clients and templates stay as loaded, the selected client and the
    selected template are among them, and every query in flight asks for
    the rows of a loaded client. *)
Theorem X15_selection_refers_to_loaded (cs : list SupaCliente) (ts : list Template)
    (evs : list Event) :
  refersToLoaded cs ts (run (initialWorld cs ts) evs).
Proof.
  assert (Hinit : refersToLoaded cs ts (initialWorld cs ts)).
  { unfold refersToLoaded. cbn. split_and!; try done.
    intros cid Hin. by apply elem_of_nil in Hin. }
  revert Hinit. generalize (initialWorld cs ts) as w.
  induction evs as [|e evs IH]; intros w Hinv; [done|].
  cbn [run foldl]. apply IH. by apply step_refersToLoaded.
Qed.

(** ** The three loads *)

(** X16: each of the three loads, of the clients, of the templates and of
    the rows of a client, is local.  When it fails it leaves every cell of
    the state as it was, logs one error and shows one error toast.  When it
    succeeds it replaces the list it asked for, by the empty list when the
    answer carries no rows at all, and touches neither the other lists nor
    the selection nor the bindings, so that the variables and the preview
    are what they were. *)
Theorem X16_loads_are_local (st : State)
    (cs : option (list SupaCliente)) (ts : option (list Template))
    (ps : option (list SupaProcesso)) :
  let st1 := (fetchClientes_resolved (ClientesData cs) st).1 in
  let st2 := (fetchTemplates_resolved (TemplatesData ts) st).1 in
  let st3 := (fetchProcessosByCliente_resolved (QueryData ps) st).1 in
  (∃ logged shown,
     fetchClientes_resolved ClientesError st
     = (st, [ConsoleError logged; Toast (lit "Erro") shown]))
  ∧ (∃ logged shown,
       fetchTemplates_resolved TemplatesError st
       = (st, [ConsoleError logged; Toast (lit "Erro") shown]))
  ∧ (∃ logged shown,
       fetchProcessosByCliente_resolved QueryError st
       = (st, [ConsoleError logged; Toast (lit "Erro") shown]))
  ∧ (clientes st1 = default [] cs ∧ templates st1 = templates st
     ∧ processos st1 = processos st)
  ∧ (templates st2 = default [] ts ∧ clientes st2 = clientes st
     ∧ processos st2 = processos st)
  ∧ (processos st3 = default [] ps ∧ clientes st3 = clientes st
     ∧ templates st3 = templates st)
  ∧ (∀ st', st' = st1 ∨ st' = st2 ∨ st' = st3 →
       selectedCliente st' = selectedCliente st
       ∧ selectedTemplate st' = selectedTemplate st
       ∧ variableValues st' = variableValues st
       ∧ generatedMessage (selectedTemplate st') (variableValues st')
         = generatedMessage (selectedTemplate st) (variableValues st)).
Proof.
  cbn zeta. split_and!; try done; try by do 2 eexists.
  intros st' [-> | [-> | ->]]; by cbn.
Qed.

(** ** The select of case numbers *)

(** X17: right after a client is picked the select of case numbers is
    disabled and offers nothing; when an answer arrives, it is enabled
    exactly if a client is selected and the answer has at least one row, and
    it offers the numbers of the rows of the answer, in their order. *)
Theorem X17_processo_select (w : World) :
  (∀ clienteId,
     processoSelectDisabled (ui (step w (SelectCliente clienteId)).1) = true
     ∧ processoOptions (ui (step w (SelectCliente clienteId)).1) = [])
  ∧ (∀ k data, is_Some (inflight w !! k) →
       let w' := (step w (ProcessosResolved k (QueryData data))).1 in
       (processoSelectDisabled (ui w') = false
        ↔ is_Some (selectedCliente (ui w)) ∧ default [] data ≠ [])
       ∧ processoOptions (ui w') = p_numero <$> default [] data).
Proof.
  split.
  - intros clienteId. cbn [step handleSelectCliente fst ui].
    unfold processoSelectDisabled, processoOptions.
    destruct (commit_lists (ui w) (handleSelectCliente clienteId (ui w)).1)
      as (_ & _ & _ & _ & H5).
    cbn [handleSelectCliente fst] in H5. rewrite H5. cbn. split; [|done].
    apply orb_true_r.
  - intros k data [cid Hk]. cbn zeta. cbn [step]. rewrite Hk.
    unfold processoSelectDisabled, processoOptions. cbn. split; [|done].
    rewrite orb_false_iff, !bool_decide_eq_false. split.
    + intros [Hsel Hdata]. split; [|done].
      by destruct (selectedCliente (ui w)).
    + intros [[c Hc] Hdata]. split; [|done]. by rewrite Hc.
Qed.

(** ** The first two choices *)






